(** * The UHD module loader (host/lib/load_modules.cpp)

    A shallow embedding of the start-up routine that reads the
    UHD_MODULE_PATH environment variable, splits it at the path
    separators, walks every path recursively and hands every
    non-directory to the platform's dynamic loader.

    The routine talks to four things outside itself: the environment,
    the filesystem (Boost.Filesystem queries), the dynamic-loading
    facility (dlopen / LoadLibrary) and the standard error stream.  The
    embedding keeps one chronological trace of these interactions and
    threads it through the code as state; C++ exceptions are an explicit
    second outcome of every computation. *)

From Stdlib Require Import String Ascii List Bool Arith Lia Permutation.
Import ListNotations.
Local Open Scope string_scope.
Local Open Scope list_scope.
Set Warnings "-register-all".

(** ** Strings *)

(** The double-quote character of the format strings. *)
Definition dquote : string := String (ascii_of_nat 34) EmptyString.

(** [boost::format("...\"%s\"...") % s] puts [s] between double quotes. *)
Definition quoted (s : string) : string := dquote ++ s ++ dquote.

(** [includes needle hay]: [needle] occurs in [hay] as a contiguous
    substring. *)
Fixpoint includes (needle hay : string) : bool :=
  String.prefix needle hay
  || match hay with
     | EmptyString => false
     | String _ rest => includes needle rest
     end.

(** [boost::is_any_of(set)]: the character predicate of [boost::split]. *)
Fixpoint is_any_of (set : string) (c : ascii) : bool :=
  match set with
  | EmptyString => false
  | String d set' => Ascii.eqb c d || is_any_of set' c
  end.

(** [boost::split(result, input, pred)] with the default
    [token_compress_off]: every separator character ends one token and
    starts the next one, so adjacent separators and separators at either
    end yield empty tokens, and an input with k separators yields k+1
    tokens. *)
Fixpoint split (pred : ascii -> bool) (input : string) : list string :=
  match input with
  | EmptyString => [EmptyString]
  | String c rest =>
      if pred c then EmptyString :: split pred rest
      else match split pred rest with
           | tok :: toks => String c tok :: toks
           | [] => [String c EmptyString]
           end
  end.

(** The inverse direction, used to state what "a value containing N
    separator-delimited entries" is. *)
Fixpoint join (sep : string) (entries : list string) : string :=
  match entries with
  | [] => EmptyString
  | [e] => e
  | e :: rest => e ++ sep ++ join sep rest
  end.

(** No character of [s] satisfies [pred]. *)
Fixpoint free_of (pred : ascii -> bool) (s : string) : bool :=
  match s with
  | EmptyString => true
  | String c rest => negb (pred c) && free_of pred rest
  end.

(** ** The outside world *)

(** The three build variants of the loading primitive, selected by
    HAVE_DLFCN_H / HAVE_WINDOWS_H / neither. *)
Inductive platform := Dlfcn | Windows | Unsupported.

(** What the platform's facility answers for a file: a handle, or NULL
    together with the error text the facility would report for it
    (dlerror / GetLastError). *)
Inductive dl_result :=
| Handle
| Null (error_text : string).

(** What the filesystem answers about a path.  Everything that exists
    and is not a directory is handed to the loader, so a file carries the
    facility's answer for it; a directory carries the paths its iterator
    yields, in iteration order.  Boost's queries report every failure
    other than "not found" by throwing [filesystem_error]: a directory
    that cannot be opened makes the iterator's constructor throw, and a
    path whose status cannot be read (name too long, too many levels of
    symbolic links) makes [fs::exists] throw; both carry the [what()]
    text of the exception. *)
Inductive node :=
| File (dl : dl_result)
| Directory (entries : list string)
| Unreadable (what : string)
| Broken (what : string).

Definition filesystem := string -> option node.

(** The surroundings of one scan. [sys_complete] is
    [fs::system_complete]: it resolves a raw path against the current
    working directory. *)
Record system := {
  sys_platform : platform;
  sys_env : string -> option string;
  sys_complete : string -> string;
  sys_fs : filesystem
}.

(** The interactions of the routine with the outside, in the order they
    happen. *)
Inductive event :=
| ReadEnv (key : string)          (* the environment is parsed *)
| Resolve (raw : string)          (* fs::system_complete *)
| Exists (path : string)          (* fs::exists *)
| IsDirectory (path : string)     (* fs::is_directory *)
| DirIter (path : string)         (* fs::directory_iterator opened *)
| LoadModule (file : string)      (* load_module called: a load attempt *)
| Cerr (line : string).           (* one line on std::cerr *)

Definition trace := list event.

(** ** Computations *)

(** A computation either returns or leaves by a C++ exception carrying
    its [what()] text. *)
Inductive outcome (A : Type) :=
| Done (a : A)
| Raised (what : string).
Arguments Done {A} a.
Arguments Raised {A} what.

(** A computation extends the trace; [None] means the recursion budget
    (the stack) was used up before it finished. *)
Definition M (A : Type) : Type := trace -> option (outcome A * trace).

Definition ret {A} (a : A) : M A := fun t => Some (Done a, t).

Definition bind {A B} (m : M A) (k : A -> M B) : M B :=
  fun t =>
    match m t with
    | None => None
    | Some (Done a, t') => k a t'
    | Some (Raised what, t') => Some (Raised what, t')
    end.

Notation "x <- m ;; k" := (bind m (fun x => k))
  (at level 61, m at next level, right associativity).
Notation "m ;;; k" := (bind m (fun _ => k))
  (at level 61, right associativity).

Definition emit (e : event) : M unit := fun t => Some (Done tt, t ++ [e]).

Definition throw {A} (what : string) : M A := fun t => Some (Raised what, t).

(** [try { body } catch (const std::exception &err) { handler(err.what()) }] *)
Definition try_catch {A} (body : M A) (handler : string -> M A) : M A :=
  fun t =>
    match body t with
    | None => None
    | Some (Done a, t') => Some (Done a, t')
    | Some (Raised what, t') => handler what t'
    end.

(** A loop over a sequence (BOOST_FOREACH, or the directory iterator's
    for loop): an exception leaving the body leaves the loop. *)
Fixpoint for_each {A} (body : A -> M unit) (xs : list A) : M unit :=
  match xs with
  | [] => ret tt
  | x :: rest => body x ;;; for_each body rest
  end.

(** [std::cerr << line << std::endl] *)
Definition cerr (line : string) : M unit := emit (Cerr line).

(** ** Module Load Function *)

Definition env_path_sep (p : platform) : string :=
  match p with
  | Dlfcn => ":"
  | Windows => ";"
  | Unsupported => ":"
  end.

(** The [what()] text of the exception each variant throws. *)
Definition load_failure (p : platform) (file_name : string) : string :=
  match p with
  | Dlfcn => "dlopen failed to load " ++ quoted file_name
  | Windows => "LoadLibrary failed to load " ++ quoted file_name
  | Unsupported =>
      "Module loading not supported: Cannot load " ++ quoted file_name
  end.

(** The facility's answer for [file_name]; a path that names no file
    cannot be opened. *)
Definition dl_open (fs : filesystem) (file_name : string) : dl_result :=
  match fs file_name with
  | Some (File r) => r
  | _ => Null "cannot open shared object file"
  end.

Definition load_module (sys : system) (file_name : string) : M unit :=
  emit (LoadModule file_name) ;;;
  match sys_platform sys with
  | Dlfcn | Windows =>
      match dl_open (sys_fs sys) file_name with
      | Handle => ret tt
      | Null _ => throw (load_failure (sys_platform sys) file_name)
      end
  | Unsupported => throw (load_failure Unsupported file_name)
  end.

(** ** Load Modules *)

(** [fs::exists]: false for a path that is not found, an exception when
    the status of the path cannot be read. *)
Definition fs_exists (sys : system) (path : string) : M bool :=
  emit (Exists path) ;;;
  match sys_fs sys path with
  | None => ret false
  | Some (Broken what) => throw what
  | Some _ => ret true
  end.

(** [fs::is_directory], with the same exception. *)
Definition fs_is_directory (sys : system) (path : string) : M bool :=
  emit (IsDirectory path) ;;;
  match sys_fs sys path with
  | Some (Directory _) | Some (Unreadable _) => ret true
  | Some (Broken what) => throw what
  | _ => ret false
  end.

(** The constructor of [fs::directory_iterator]: it throws when the
    directory cannot be opened. *)
Definition directory_iterator (sys : system) (path : string) : M (list string) :=
  emit (DirIter path) ;;;
  match sys_fs sys path with
  | Some (Directory es) => ret es
  | Some (Unreadable what) | Some (Broken what) => throw what
  | _ => throw "Not a directory"
  end.

Definition not_found (path : string) : string :=
  "Module path " ++ quoted path ++ " not found.".

(** [load_path]: the recursion of the source is on the filesystem, which
    may be cyclic; [fuel] is the number of nested calls available. *)
Fixpoint load_path (fuel : nat) (sys : system) (path : string) : M unit :=
  match fuel with
  | O => fun _ => None
  | S fuel' =>
      ex <- fs_exists sys path ;;
      if negb ex then
        cerr (not_found path)
      else
        (* try to load the files in this path *)
        dir <- fs_is_directory sys path ;;
        if dir then
          es <- directory_iterator sys path ;;
          for_each (load_path fuel' sys) es
        else
          (* its not a directory, try to load it *)
          try_catch (load_module sys path)
                    (fun what => cerr ("Error: " ++ what))
  end.

(** The string constant for the module path environment variable. *)
Definition MODULE_PATH_KEY : string := "UHD_MODULE_PATH".

(** Name mapper function for the environment variable parser. *)
Definition name_mapper (var_name : string) : string :=
  if String.eqb var_name MODULE_PATH_KEY then var_name else "".

(** Parsing the environment through [name_mapper] into the one
    registered option, whose default value is the empty string. *)
Definition parse_environment (sys : system) : M string :=
  emit (ReadEnv MODULE_PATH_KEY) ;;;
  ret (match sys_env sys (name_mapper MODULE_PATH_KEY) with
       | Some v => v
       | None => ""
       end).

(** The body of the static block. *)
Definition load_modules (fuel : nat) (sys : system) : M unit :=
  env_module_path <- parse_environment sys ;;
  if String.eqb env_module_path "" then ret tt
  else
    (* split the path at the path separators *)
    let module_paths :=
      split (is_any_of (env_path_sep (sys_platform sys))) env_module_path in
    (* load modules in each path *)
    for_each (fun module_path =>
                emit (Resolve module_path) ;;;
                load_path fuel sys (sys_complete sys module_path))
             module_paths.

(** ** Reading a trace *)

(** The events a computation adds when started on the empty trace. *)
Definition emitted {A} (m : M A) : option trace :=
  match m [] with
  | Some (_, evs) => Some evs
  | None => None
  end.

(** The result of a computation started on [t], from its result on the
    empty trace. *)
Definition shift {A} (t : trace) (r : option (outcome A * trace))
  : option (outcome A * trace) :=
  match r with
  | Some (o, evs) => Some (o, t ++ evs)
  | None => None
  end.

(** The result with its trace seen through [f]. *)
Definition through {A} (f : trace -> trace) (r : option (outcome A * trace))
  : option (outcome A * trace) :=
  match r with
  | Some (o, evs) => Some (o, f evs)
  | None => None
  end.

(** The files handed to [load_module], in order. *)
Fixpoint load_attempts (tr : trace) : list string :=
  match tr with
  | [] => []
  | LoadModule f :: rest => f :: load_attempts rest
  | _ :: rest => load_attempts rest
  end.

(** The lines written to the standard error stream, in order. *)
Fixpoint diagnostics (tr : trace) : list string :=
  match tr with
  | [] => []
  | Cerr line :: rest => line :: diagnostics rest
  | _ :: rest => diagnostics rest
  end.

(** The raw entries resolved at the top level, in order. *)
Fixpoint top_level (tr : trace) : list string :=
  match tr with
  | [] => []
  | Resolve raw :: rest => raw :: top_level rest
  | _ :: rest => top_level rest
  end.

Definition is_fs_access (e : event) : bool :=
  match e with
  | Exists _ | IsDirectory _ | DirIter _ => true
  | _ => false
  end.

(** The queries made to the filesystem, in order. *)
Definition fs_accesses (tr : trace) : trace := filter is_fs_access tr.

(** A "load failed" line is one the catch handler of [load_path] wrote. *)
Definition is_load_failed (e : event) : bool :=
  match e with
  | Cerr line => String.prefix "Error: " line
  | _ => false
  end.

(** The trace without the "load failed" lines: the environment read, the
    resolutions, the filesystem queries, the load attempts and the
    "not found" lines. *)
Definition without_load_failed (tr : trace) : trace :=
  filter (fun e => negb (is_load_failed e)) tr.

(** What the handling of one existing non-directory adds after the load
    attempt: nothing when the module loaded, one line otherwise. *)
Definition load_report (sys : system) (file : string) : trace :=
  match sys_platform sys, dl_open (sys_fs sys) file with
  | Unsupported, _ | _, Null _ =>
      [Cerr ("Error: " ++ load_failure (sys_platform sys) file)]
  | _, Handle => []
  end.

(** The events one call of [load_path] adds (none if it does not
    finish within [fuel] nested calls). *)
Definition events_of (fuel : nat) (sys : system) (path : string) : trace :=
  match emitted (load_path fuel sys path) with
  | Some evs => evs
  | None => []
  end.

(** One top-level step of [load_modules]. *)
Definition visit (fuel : nat) (sys : system) (module_path : string) : M unit :=
  emit (Resolve module_path) ;;;
  load_path fuel sys (sys_complete sys module_path).


(** The reading of "the diagnostic of a failed load includes the file
    path and the error text the facility reported": every line the walk
    of candidate [file] writes contains both. *)
Definition diagnostic_carries_facility_text (sys : system) (file : string) : Prop :=
  forall text line,
    dl_open (sys_fs sys) file = Null text ->
    In line (diagnostics (events_of 1 sys file)) ->
    includes file line = true /\ includes text line = true.

(** ** Shapes of filesystems *)

(** [nesting_le fs n p]: below [p] there are at most [n] levels of
    directories, every one of them finitely branching: [p] is the root
    of a finite tree of depth at most [n]. *)
Inductive nesting_le (fs : filesystem) : nat -> string -> Prop :=
| nesting_missing n p :
    fs p = None -> nesting_le fs n p
| nesting_file n p r :
    fs p = Some (File r) -> nesting_le fs n p
| nesting_unreadable n p what :
    fs p = Some (Unreadable what) -> nesting_le fs n p
| nesting_broken n p what :
    fs p = Some (Broken what) -> nesting_le fs n p
| nesting_dir n p es :
    fs p = Some (Directory es) ->
    Forall (nesting_le fs n) es ->
    nesting_le fs (S n) p.

(** [nested_dirs fs n p]: a descent through [n] directories starts at
    [p]. *)
Inductive nested_dirs (fs : filesystem) : nat -> string -> Prop :=
| nested_here p : nested_dirs fs 0 p
| nested_below n p es q :
    fs p = Some (Directory es) ->
    In q es ->
    nested_dirs fs n q ->
    nested_dirs fs (S n) p.

(** [reaches fs p q]: [q] is [p] or lies under it at any depth. *)
Inductive reaches (fs : filesystem) : string -> string -> Prop :=
| reaches_self p : reaches fs p p
| reaches_entry p es e q :
    fs p = Some (Directory es) ->
    In e es ->
    reaches fs e q ->
    reaches fs p q.

(** Two filesystems with the same files and directories that enumerate
    the entries of their directories in possibly different orders. *)
Definition same_upto_order (fs1 fs2 : filesystem) : Prop :=
  forall p,
    match fs1 p, fs2 p with
    | None, None => True
    | Some (File r1), Some (File r2) => r1 = r2
    | Some (Directory es1), Some (Directory es2) => Permutation es1 es2
    | Some (Unreadable w1), Some (Unreadable w2) => w1 = w2
    | Some (Broken w1), Some (Broken w2) => w1 = w2
    | _, _ => False
    end.

(** Two scans see the same inputs: the same build, the same value of
    every environment variable, the same working directory and the same
    filesystem, enumeration order included. *)
Definition same_inputs (s1 s2 : system) : Prop :=
  sys_platform s1 = sys_platform s2
  /\ (forall k, sys_env s1 k = sys_env s2 k)
  /\ (forall raw, sys_complete s1 raw = sys_complete s2 raw)
  /\ (forall p, sys_fs s1 p = sys_fs s2 p).

(** Two filesystems with the same paths, the same directories and the
    same entries in the same order, whose files the loader may answer
    differently. *)
Definition same_shape (fs1 fs2 : filesystem) : Prop :=
  forall p,
    match fs1 p, fs2 p with
    | None, None => True
    | Some (File _), Some (File _) => True
    | Some (Directory es1), Some (Directory es2) => es1 = es2
    | Some (Unreadable w1), Some (Unreadable w2) => w1 = w2
    | Some (Broken w1), Some (Broken w2) => w1 = w2
    | _, _ => False
    end.

(** Two scans between which nothing but the answers of the loader may
    have changed. *)
Definition same_inputs_but_loader (s1 s2 : system) : Prop :=
  sys_platform s1 = sys_platform s2
  /\ (forall k, sys_env s1 k = sys_env s2 k)
  /\ (forall raw, sys_complete s1 raw = sys_complete s2 raw)
  /\ same_shape (sys_fs s1) (sys_fs s2).

(** The same surroundings on another build. *)
Definition on_platform (p : platform) (sys : system) : system :=
  {| sys_platform := p;
     sys_env := sys_env sys;
     sys_complete := sys_complete sys;
     sys_fs := sys_fs sys |}.

(** Every configured path is the root of a finite tree of nesting depth
    at most [n]. *)
Definition walkable (sys : system) (n : nat) : Prop :=
  forall value,
    sys_env sys MODULE_PATH_KEY = Some value ->
    Forall (fun raw => nesting_le (sys_fs sys) n (sys_complete sys raw))
           (split (is_any_of (env_path_sep (sys_platform sys))) value).

(** The same surroundings over another filesystem. *)
Definition on_filesystem (fs : filesystem) (sys : system) : system :=
  {| sys_platform := sys_platform sys;
     sys_env := sys_env sys;
     sys_complete := sys_complete sys;
     sys_fs := fs |}.

(** ** Sample surroundings *)

(** A filesystem given by a table of its paths. *)
Fixpoint fs_of (table : list (string * node)) : filesystem :=
  fun p =>
    match table with
    | [] => None
    | (q, n) :: rest => if String.eqb p q then Some n else fs_of rest p
    end.

(** [fs::system_complete] as Boost.Filesystem implements it for POSIX:
    an empty or rooted path is returned as it is, any other is put under
    the working directory. *)
Definition posix_complete (cwd raw : string) : string :=
  match raw with
  | EmptyString => raw
  | String c _ => if Ascii.eqb c "/" then raw else cwd ++ "/" ++ raw
  end.

Definition env_of (value : option string) : string -> option string :=
  fun k => if String.eqb k MODULE_PATH_KEY then value else None.

(** A module directory with files [a], [b] and a sub-directory [c]
    holding [d]; [b] is a plain text file. *)
Definition sample_fs : filesystem :=
  fs_of [ ("/opt/uhd",     Directory ["/opt/uhd/a"; "/opt/uhd/b"; "/opt/uhd/c"]);
          ("/opt/uhd/a",   File Handle);
          ("/opt/uhd/b",   File (Null "invalid ELF header"));
          ("/opt/uhd/c",   Directory ["/opt/uhd/c/d"]);
          ("/opt/uhd/c/d", File Handle) ].

(** The same directory enumerated in another order. *)
Definition sample_fs_reordered : filesystem :=
  fs_of [ ("/opt/uhd",     Directory ["/opt/uhd/c"; "/opt/uhd/b"; "/opt/uhd/a"]);
          ("/opt/uhd/a",   File Handle);
          ("/opt/uhd/b",   File (Null "invalid ELF header"));
          ("/opt/uhd/c",   Directory ["/opt/uhd/c/d"]);
          ("/opt/uhd/c/d", File Handle) ].

Definition sample_system (p : platform) (value : option string) : system :=
  {| sys_platform := p;
     sys_env := env_of value;
     sys_complete := posix_complete "/home/user";
     sys_fs := sample_fs |}.

(** A directory that holds a link to itself.  The link can be followed
    forty times: [/loop] and the forty paths that add [/self] to it are
    directories with the one entry [self]; the status of the next path
    cannot be read. *)
Fixpoint loop_table (links : nat) (p : string) : list (string * node) :=
  match links with
  | O => [(p, Broken "Too many levels of symbolic links")]
  | S k => (p, Directory [(p ++ "/self")%string])
             :: loop_table k (p ++ "/self")
  end.

Definition looping_fs : filesystem := fs_of (loop_table 41 "/loop").

Definition looping_system : system :=
  {| sys_platform := Dlfcn;
     sys_env := env_of (Some "/loop");
     sys_complete := posix_complete "/home/user";
     sys_fs := looping_fs |}.

(** A module directory whose first entry is a directory that cannot be
    opened and whose second entry is a loadable module. *)
Definition locked_fs : filesystem :=
  fs_of [ ("/srv/mods",        Directory ["/srv/mods/locked"; "/srv/mods/m.so"]);
          ("/srv/mods/locked", Unreadable "Permission denied");
          ("/srv/mods/m.so",   File Handle);
          ("/srv/extra.so",    File Handle) ].

Definition locked_system (value : string) : system :=
  {| sys_platform := Dlfcn;
     sys_env := env_of (Some value);
     sys_complete := posix_complete "/home/user";
     sys_fs := locked_fs |}.

(** No query of the filesystem fails: every path is missing, a file or a
    directory that can be opened. *)
Definition readable (fs : filesystem) : Prop :=
  forall p what, fs p <> Some (Unreadable what) /\ fs p <> Some (Broken what).


(** ** Counting and listing *)

Definition is_exists (e : event) : bool :=
  match e with Exists _ => true | _ => false end.

Definition is_is_directory (e : event) : bool :=
  match e with IsDirectory _ => true | _ => false end.

Definition is_dir_iter (e : event) : bool :=
  match e with DirIter _ => true | _ => false end.

Definition is_load_module (e : event) : bool :=
  match e with LoadModule _ => true | _ => false end.

Definition is_resolve (e : event) : bool :=
  match e with Resolve _ => true | _ => false end.

Definition is_read_env (e : event) : bool :=
  match e with ReadEnv _ => true | _ => false end.

(** A line on the error stream that the catch handler did not write. *)
Definition is_not_found (e : event) : bool :=
  match e with
  | Cerr line => negb (String.prefix "Error: " line)
  | _ => false
  end.

(** How many events of a kind a trace holds. *)
Definition count (kind : event -> bool) (tr : trace) : nat :=
  length (filter kind tr).

(** How many characters of [s] satisfy [pred]. *)
Fixpoint char_count (pred : ascii -> bool) (s : string) : nat :=
  match s with
  | EmptyString => 0
  | String c rest => (if pred c then 1 else 0) + char_count pred rest
  end.

(** The raw entries of the variable as the static block loops over
    them: none when the value is absent or empty. *)
Definition entries_of (sys : system) : list string :=
  match sys_env sys MODULE_PATH_KEY with
  | None | Some EmptyString => []
  | Some value => split (is_any_of (env_path_sep (sys_platform sys))) value
  end.


(** The files under a path, listed depth first in enumeration order,
    down to [fuel] levels. *)
Fixpoint files_under (fuel : nat) (fs : filesystem) (p : string) : list string :=
  match fuel with
  | O => []
  | S fuel' =>
      match fs p with
      | Some (File _) => [p]
      | Some (Directory es) => flat_map (files_under fuel' fs) es
      | _ => []
      end
  end.


(** The path a filesystem query or a load attempt is about. *)
Definition path_of (e : event) : option string :=
  match e with
  | Exists p | IsDirectory p | DirIter p | LoadModule p => Some p
  | _ => None
  end.

(** The same surroundings with the variable set to [value]. *)
Definition with_value (value : string) (sys : system) : system :=
  {| sys_platform := sys_platform sys;
     sys_env := env_of (Some value);
     sys_complete := sys_complete sys;
     sys_fs := sys_fs sys |}.

(** The steps a scan is made of: the environment read, the resolution
    of an entry, and the five ways [load_path] deals with a path before
    it returns, recurses or is left by an exception. *)
Inductive step (sys : system) : trace -> Prop :=
| step_env : step sys [ReadEnv MODULE_PATH_KEY]
| step_resolve raw : step sys [Resolve raw]
| step_missing p :
    sys_fs sys p = None -> step sys [Exists p; Cerr (not_found p)]
| step_broken p what :
    sys_fs sys p = Some (Broken what) -> step sys [Exists p]
| step_file p r :
    sys_fs sys p = Some (File r) ->
    step sys (Exists p :: IsDirectory p :: LoadModule p :: load_report sys p)
| step_dir p es :
    sys_fs sys p = Some (Directory es) ->
    step sys [Exists p; IsDirectory p; DirIter p]
| step_unreadable p what :
    sys_fs sys p = Some (Unreadable what) ->
    step sys [Exists p; IsDirectory p; DirIter p].

(** ** One call of [load_path], case by case *)

Lemma load_module_run sys file t :
  load_module sys file t =
  match load_report sys file with
  | [] => Some (Done tt, t ++ [LoadModule file])
  | _ => Some (Raised (load_failure (sys_platform sys) file),
               t ++ [LoadModule file])
  end.
Proof.
  unfold load_module, load_report, bind, emit, ret, throw.
  destruct (sys_platform sys); try destruct (dl_open _ _); reflexivity.
Qed.

Lemma load_path_missing fuel sys p t :
  sys_fs sys p = None ->
  load_path (S fuel) sys p t = Some (Done tt, t ++ [Exists p; Cerr (not_found p)]).
Proof.
  intros H. simpl. unfold bind, fs_exists, cerr, emit, ret. rewrite H. simpl.
  now rewrite <- app_assoc.
Qed.

Lemma load_path_broken fuel sys p what t :
  sys_fs sys p = Some (Broken what) ->
  load_path (S fuel) sys p t = Some (Raised what, t ++ [Exists p]).
Proof.
  intros H. simpl. unfold bind, fs_exists, emit, throw. now rewrite H.
Qed.

Lemma load_path_file fuel sys p r t :
  sys_fs sys p = Some (File r) ->
  load_path (S fuel) sys p t =
  Some (Done tt,
        t ++ Exists p :: IsDirectory p :: LoadModule p :: load_report sys p).
Proof.
  intros H. simpl.
  unfold bind at 1 2. unfold fs_exists, fs_is_directory, bind, emit, ret.
  rewrite H. simpl. unfold try_catch. rewrite load_module_run.
  unfold load_report, cerr, emit.
  destruct (sys_platform sys); try destruct (dl_open _ _);
    rewrite <- !app_assoc; reflexivity.
Qed.

Lemma load_path_dir fuel sys p es t :
  sys_fs sys p = Some (Directory es) ->
  load_path (S fuel) sys p t =
  for_each (load_path fuel sys) es (t ++ [Exists p; IsDirectory p; DirIter p]).
Proof.
  intros H. simpl.
  unfold bind at 1 2 3.
  unfold fs_exists, fs_is_directory, directory_iterator, bind, emit, ret.
  rewrite H. simpl. now rewrite <- !app_assoc.
Qed.

Lemma load_path_unreadable fuel sys p what t :
  sys_fs sys p = Some (Unreadable what) ->
  load_path (S fuel) sys p t
  = Some (Raised what, t ++ [Exists p; IsDirectory p; DirIter p]).
Proof.
  intros H. simpl.
  unfold bind at 1 2 3.
  unfold fs_exists, fs_is_directory, directory_iterator, bind, emit, ret, throw.
  rewrite H. simpl. now rewrite <- !app_assoc.
Qed.

(** ** Computations extend the trace they are given *)

Lemma shift_nil {A} (r : option (outcome A * trace)) : shift [] r = r.
Proof. now destruct r as [[o evs]|]. Qed.

Lemma shift_shift {A} a b (r : option (outcome A * trace)) :
  shift a (shift b r) = shift (a ++ b) r.
Proof. destruct r as [[o evs]|]; simpl; trivial. now rewrite app_assoc. Qed.

Section Loops.
Context {A : Type} (body : A -> M unit).
Hypothesis body_frame : forall x t, body x t = shift t (body x []).

Lemma for_each_cons x xs t :
  for_each body (x :: xs) t =
  match body x [] with
  | None => None
  | Some (Done _, a) => for_each body xs (t ++ a)
  | Some (Raised what, a) => Some (Raised what, t ++ a)
  end.
Proof.
  simpl. unfold bind. rewrite (body_frame x t).
  now destruct (body x []) as [[[u|what] a]|].
Qed.

Lemma for_each_frame xs :
  forall t, for_each body xs t = shift t (for_each body xs []).
Proof.
  induction xs as [|x xs IH]; intros t.
  - simpl. unfold ret. now rewrite app_nil_r.
  - rewrite (for_each_cons x xs t), (for_each_cons x xs []).
    destruct (body x []) as [[[u|what] a]|]; simpl; trivial.
    now rewrite (IH (t ++ a)), (IH a), shift_shift.
Qed.

End Loops.

Lemma load_path_frame fuel sys :
  forall p t, load_path fuel sys p t = shift t (load_path fuel sys p []).
Proof.
  induction fuel as [|fuel IH]; intros p t; [reflexivity|].
  destruct (sys_fs sys p) as [[r|es|w|w]|] eqn:E.
  - now rewrite (load_path_file _ _ _ r t E), (load_path_file _ _ _ r [] E).
  - rewrite (load_path_dir _ _ _ es t E), (load_path_dir _ _ _ es [] E).
    rewrite !(for_each_frame _ IH es (_ ++ _)). simpl app.
    now rewrite shift_shift.
  - now rewrite (load_path_unreadable _ _ _ w t E),
      (load_path_unreadable _ _ _ w [] E).
  - now rewrite (load_path_broken _ _ _ w t E), (load_path_broken _ _ _ w [] E).
  - now rewrite (load_path_missing _ _ _ t E), (load_path_missing _ _ _ [] E).
Qed.

Lemma run_load_path_dir fuel sys p es :
  sys_fs sys p = Some (Directory es) ->
  load_path (S fuel) sys p []
  = shift [Exists p; IsDirectory p; DirIter p]
      (for_each (load_path fuel sys) es []).
Proof.
  intros E. rewrite (load_path_dir _ _ _ es [] E).
  now rewrite (for_each_frame _ (load_path_frame fuel sys)).
Qed.

Lemma visit_frame fuel sys raw t :
  visit fuel sys raw t = shift t (visit fuel sys raw []).
Proof.
  unfold visit, bind, emit. simpl.
  rewrite (load_path_frame fuel sys _ (t ++ [Resolve raw])).
  rewrite (load_path_frame fuel sys _ [Resolve raw]).
  now rewrite shift_shift.
Qed.

Lemma run_visit fuel sys raw :
  visit fuel sys raw []
  = shift [Resolve raw] (load_path fuel sys (sys_complete sys raw) []).
Proof.
  unfold visit, bind, emit. simpl. apply load_path_frame.
Qed.

(** The value of the variable as the static block sees it. *)
Lemma load_modules_unfold fuel sys t :
  load_modules fuel sys t =
  match sys_env sys MODULE_PATH_KEY with
  | None | Some EmptyString => Some (Done tt, t ++ [ReadEnv MODULE_PATH_KEY])
  | Some value =>
      for_each (visit fuel sys)
               (split (is_any_of (env_path_sep (sys_platform sys))) value)
               (t ++ [ReadEnv MODULE_PATH_KEY])
  end.
Proof.
  unfold load_modules, parse_environment, bind, emit, ret.
  change (name_mapper MODULE_PATH_KEY) with MODULE_PATH_KEY.
  destruct (sys_env sys MODULE_PATH_KEY) as [[|c v]|]; reflexivity.
Qed.

Lemma load_modules_frame fuel sys t :
  load_modules fuel sys t = shift t (load_modules fuel sys []).
Proof.
  rewrite !load_modules_unfold.
  destruct (sys_env sys MODULE_PATH_KEY) as [[|c v]|]; trivial.
  rewrite !(for_each_frame _ (visit_frame fuel sys) _ (_ ++ _)). simpl app.
  now rewrite shift_shift.
Qed.

Lemma run_load_modules fuel sys :
  load_modules fuel sys []
  = match sys_env sys MODULE_PATH_KEY with
    | None | Some EmptyString => Some (Done tt, [ReadEnv MODULE_PATH_KEY])
    | Some value =>
        shift [ReadEnv MODULE_PATH_KEY]
          (for_each (visit fuel sys)
             (split (is_any_of (env_path_sep (sys_platform sys))) value) [])
    end.
Proof.
  rewrite load_modules_unfold.
  destruct (sys_env sys MODULE_PATH_KEY) as [[|c v]|]; trivial.
  apply (for_each_frame _ (visit_frame fuel sys)).
Qed.

(** ** Properties of every finished walk and scan *)

(** A property of outcomes and traces that holds of every step of the
    loader and is kept by running one step after a step that returned
    holds of every finished walk and scan. *)
Section ResultInduction.
Variable sys : system.
Variable R : outcome unit -> trace -> Prop.
Hypothesis R_nil : R (Done tt) [].
Hypothesis R_seq :
  forall a o b, R (Done tt) a -> R o b -> R o (a ++ b).
Hypothesis R_missing :
  forall p, sys_fs sys p = None -> R (Done tt) [Exists p; Cerr (not_found p)].
Hypothesis R_broken :
  forall p what, sys_fs sys p = Some (Broken what) -> R (Raised what) [Exists p].
Hypothesis R_file :
  forall p r, sys_fs sys p = Some (File r) ->
    R (Done tt) (Exists p :: IsDirectory p :: LoadModule p :: load_report sys p).
Hypothesis R_dir :
  forall p es, sys_fs sys p = Some (Directory es) ->
    R (Done tt) [Exists p; IsDirectory p; DirIter p].
Hypothesis R_unreadable :
  forall p what, sys_fs sys p = Some (Unreadable what) ->
    R (Raised what) [Exists p; IsDirectory p; DirIter p].

Lemma loop_result_ind {A} (body : A -> M unit) :
  (forall x t, body x t = shift t (body x [])) ->
  (forall x o evs, body x [] = Some (o, evs) -> R o evs) ->
  forall xs o evs, for_each body xs [] = Some (o, evs) -> R o evs.
Proof.
  intros Hf Hb. induction xs as [|x xs IH]; intros o evs H.
  - injection H as <- <-. exact R_nil.
  - rewrite (for_each_cons _ Hf) in H.
    destruct (body x []) as [[[[]|what] a]|] eqn:E; [| |discriminate].
    + simpl in H. rewrite (for_each_frame _ Hf) in H.
      destruct (for_each body xs []) as [[o' b]|] eqn:E'; [|discriminate].
      injection H as <- <-. apply R_seq; eauto.
    + injection H as <- <-. simpl. eauto.
Qed.

Lemma walk_result_ind fuel :
  forall p o evs, load_path fuel sys p [] = Some (o, evs) -> R o evs.
Proof.
  induction fuel as [|fuel IH]; intros p o evs H; [discriminate|].
  destruct (sys_fs sys p) as [[r|es|w|w]|] eqn:E.
  - rewrite (load_path_file _ _ _ _ [] E) in H. injection H as <- <-. eauto.
  - rewrite (run_load_path_dir _ _ _ _ E) in H.
    destruct (for_each _ es []) as [[o' b]|] eqn:Eb; [|discriminate].
    injection H as <- <-.
    apply (R_seq [Exists p; IsDirectory p; DirIter p]); [eauto|].
    exact (loop_result_ind _ (load_path_frame fuel sys) IH es _ _ Eb).
  - rewrite (load_path_unreadable _ _ _ _ [] E) in H. injection H as <- <-. eauto.
  - rewrite (load_path_broken _ _ _ _ [] E) in H. injection H as <- <-. eauto.
  - rewrite (load_path_missing _ _ _ [] E) in H. injection H as <- <-. eauto.
Qed.

Hypothesis R_env : R (Done tt) [ReadEnv MODULE_PATH_KEY].
Hypothesis R_resolve : forall raw, R (Done tt) [Resolve raw].

Lemma visit_result_ind fuel raw o evs :
  visit fuel sys raw [] = Some (o, evs) -> R o evs.
Proof.
  rewrite run_visit.
  destruct (load_path _ _ _ []) as [[o' w]|] eqn:Ew; [|discriminate].
  intros H. injection H as <- <-. apply (R_seq [Resolve raw]); [apply R_resolve|].
  eapply walk_result_ind; eauto.
Qed.

Lemma scan_result_ind fuel o evs :
  load_modules fuel sys [] = Some (o, evs) -> R o evs.
Proof.
  rewrite run_load_modules.
  destruct (sys_env sys MODULE_PATH_KEY) as [[|c v]|];
    try (intros H; injection H as <- <-; exact R_env).
  destruct (for_each _ _ []) as [[o' b]|] eqn:Eb; [|discriminate].
  intros H. injection H as <- <-.
  apply (R_seq [ReadEnv MODULE_PATH_KEY]); [exact R_env|].
  exact (loop_result_ind _ (visit_frame fuel sys) (visit_result_ind fuel) _ _ _ Eb).
Qed.
End ResultInduction.

(** The same for properties of the trace alone. *)
Section EventInduction.
Variable sys : system.
Variable Q : trace -> Prop.
Hypothesis Q_nil : Q [].
Hypothesis Q_app : forall a b, Q a -> Q b -> Q (a ++ b).
Hypothesis Q_missing :
  forall p, sys_fs sys p = None -> Q [Exists p; Cerr (not_found p)].
Hypothesis Q_exists : forall p, Q [Exists p].
Hypothesis Q_file :
  forall p r, sys_fs sys p = Some (File r) ->
              Q (Exists p :: IsDirectory p :: LoadModule p :: load_report sys p).
Hypothesis Q_dir : forall p, Q [Exists p; IsDirectory p; DirIter p].
Hypothesis Q_env : Q [ReadEnv MODULE_PATH_KEY].
Hypothesis Q_resolve : forall raw, Q [Resolve raw].

Lemma walk_events_ind fuel p o evs :
  load_path fuel sys p [] = Some (o, evs) -> Q evs.
Proof.
  apply (walk_result_ind sys (fun _ evs => Q evs)); auto.
Qed.

Lemma scan_events_ind fuel o evs :
  load_modules fuel sys [] = Some (o, evs) -> Q evs.
Proof.
  apply (scan_result_ind sys (fun _ evs => Q evs)); auto.
Qed.
End EventInduction.

Lemma load_report_cases sys f :
  (load_report sys f = []
   /\ sys_platform sys <> Unsupported /\ dl_open (sys_fs sys) f = Handle)
  \/ (load_report sys f
      = [Cerr ("Error: " ++ load_failure (sys_platform sys) f)]
      /\ (sys_platform sys = Unsupported
          \/ exists text, dl_open (sys_fs sys) f = Null text)).
Proof.
  unfold load_report.
  destruct (sys_platform sys) eqn:P; destruct (dl_open (sys_fs sys) f) eqn:D;
    try (left; repeat split; congruence); right; split; eauto.
Qed.

Lemma scan_run_emitted fuel sys o evs :
  load_modules fuel sys [] = Some (o, evs) ->
  emitted (load_modules fuel sys) = Some evs.
Proof. intros H. unfold emitted. now rewrite H. Qed.

Lemma walk_run_emitted fuel sys p o evs :
  load_path fuel sys p [] = Some (o, evs) ->
  emitted (load_path fuel sys p) = Some evs.
Proof. intros H. unfold emitted. now rewrite H. Qed.

Lemma emitted_inv {A} (m : M A) evs :
  emitted m = Some evs -> exists o, m [] = Some (o, evs).
Proof.
  unfold emitted. destruct (m []) as [[o e]|]; [|discriminate].
  intros H. injection H as <-. eauto.
Qed.

(** ** Strings: substrings, splitting and joining *)

Lemma prefix_refl s : String.prefix s s = true.
Proof.
  induction s as [|c s IH]; simpl; trivial.
  destruct (ascii_dec c c); congruence.
Qed.

Lemma prefix_app_r n : forall h b, String.prefix n h = true -> String.prefix n (h ++ b) = true.
Proof.
  induction n as [|c n IH]; intros h b H.
  - destruct (h ++ b)%string; reflexivity.
  - destruct h as [|d h]; simpl in *; [discriminate|].
    destruct (ascii_dec c d); [auto|discriminate].
Qed.

Lemma prefix_app a b : String.prefix a (a ++ b) = true.
Proof. apply prefix_app_r, prefix_refl. Qed.

Lemma includes_prefix n h : String.prefix n h = true -> includes n h = true.
Proof. intros H. destruct h; simpl in *; rewrite H; reflexivity. Qed.

Lemma includes_refl s : includes s s = true.
Proof. apply includes_prefix, prefix_refl. Qed.

Lemma includes_app_l n a : forall h, includes n h = true -> includes n (a ++ h) = true.
Proof.
  induction a as [|c a IH]; intros h H; simpl; trivial.
  rewrite (IH h H). apply orb_true_r.
Qed.

Lemma includes_app_r n b : forall h, includes n h = true -> includes n (h ++ b) = true.
Proof.
  induction h as [|c h IH]; intros H.
  - destruct n; [|discriminate]. destruct b; reflexivity.
  - cbn [includes] in H. apply orb_true_iff in H. destruct H as [H|H].
    + apply includes_prefix. now apply (prefix_app_r n (String c h) b).
    + change (String c h ++ b)%string with (String c (h ++ b)%string).
      cbn [includes]. rewrite (IH H). apply orb_true_r.
Qed.

Lemma includes_quoted s : includes s (quoted s) = true.
Proof.
  unfold quoted. apply includes_app_l, includes_app_r, includes_refl.
Qed.

Lemma includes_not_found p : includes p (not_found p) = true.
Proof.
  unfold not_found. apply includes_app_l, includes_app_r, includes_quoted.
Qed.

Lemma includes_load_failure pf file :
  includes file ("Error: " ++ load_failure pf file) = true.
Proof.
  apply includes_app_l. destruct pf; apply includes_app_l, includes_quoted.
Qed.




Lemma env_path_sep_char pf :
  exists c, env_path_sep pf = String c EmptyString
            /\ is_any_of (env_path_sep pf) c = true.
Proof. destruct pf; eexists; split; reflexivity. Qed.


Lemma split_tokens_free pred s :
  Forall (fun e => free_of pred e = true) (split pred s).
Proof.
  induction s as [|c s IH]; simpl.
  - repeat constructor.
  - destruct (pred c) eqn:Hc.
    + constructor; trivial.
    + destruct (split pred s) as [|tok toks].
      * repeat constructor. simpl. now rewrite Hc.
      * inversion IH; subst. constructor; trivial. simpl. now rewrite Hc.
Qed.

Lemma split_length pred s : length (split pred s) = S (char_count pred s).
Proof.
  induction s as [|c s IH]; simpl; trivial.
  destruct (pred c); simpl.
  - now rewrite IH.
  - destruct (split pred s) as [|tok toks]; [discriminate|exact IH].
Qed.

Lemma join_split pred c s :
  (forall a, pred a = true -> a = c) ->
  join (String c EmptyString) (split pred s) = s.
Proof.
  intros Hc. induction s as [|a s IH]; simpl; trivial.
  destruct (pred a) eqn:Ha.
  - apply Hc in Ha. subst a.
    destruct (split pred s) as [|tok toks] eqn:E.
    + exfalso. pose proof (split_length pred s) as L. rewrite E in L.
      discriminate.
    + change (join (String c "") ("" :: tok :: toks))%string
        with (String c (join (String c "") (tok :: toks))).
      now rewrite IH.
  - destruct (split pred s) as [|tok toks] eqn:E.
    + exfalso. pose proof (split_length pred s) as L. rewrite E in L.
      discriminate.
    + destruct toks as [|tok' toks'].
      * simpl in *. now rewrite IH.
      * change (join (String c "") (String a tok :: tok' :: toks'))
          with (String a (join (String c "") (tok :: tok' :: toks'))).
        now rewrite IH.
Qed.

Lemma is_any_of_one c a : is_any_of (String c EmptyString) a = true -> a = c.
Proof.
  simpl. rewrite orb_false_r. apply Ascii.eqb_eq.
Qed.

Lemma split_app pred a c b :
  pred c = true ->
  split pred (a ++ String c b) = split pred a ++ split pred b.
Proof.
  intros Hc. induction a as [|x a IH]; simpl.
  - now rewrite Hc.
  - destruct (pred x); [now rewrite IH|].
    rewrite IH. destruct (split pred a) as [|tok toks] eqn:E; trivial.
    exfalso. pose proof (split_length pred a) as L. rewrite E in L.
    discriminate.
Qed.


(** ** Projections of traces *)

Lemma load_attempts_app a b :
  load_attempts (a ++ b) = load_attempts a ++ load_attempts b.
Proof.
  induction a as [|e a IH]; simpl; trivial. destruct e; simpl; congruence.
Qed.

Lemma diagnostics_app a b : diagnostics (a ++ b) = diagnostics a ++ diagnostics b.
Proof.
  induction a as [|e a IH]; simpl; trivial. destruct e; simpl; congruence.
Qed.

Lemma top_level_app a b : top_level (a ++ b) = top_level a ++ top_level b.
Proof.
  induction a as [|e a IH]; simpl; trivial. destruct e; simpl; congruence.
Qed.

Lemma load_attempts_concat l :
  load_attempts (concat l) = concat (map load_attempts l).
Proof.
  induction l as [|a l IH]; simpl; trivial. now rewrite load_attempts_app, IH.
Qed.

Lemma load_attempts_report sys f : load_attempts (load_report sys f) = [].
Proof.
  unfold load_report.
  destruct (sys_platform sys); destruct (dl_open (sys_fs sys) f); reflexivity.
Qed.

Lemma Permutation_concat_map {A B} (f g : A -> list B) l1 l2 :
  Permutation l1 l2 ->
  (forall x, In x l1 -> Permutation (f x) (g x)) ->
  Permutation (concat (map f l1)) (concat (map g l2)).
Proof.
  intros HP. induction HP as [|x l l' HP IH|x y l|l l' l'' HP1 IH1 HP2 IH2];
    intros Hfg; simpl.
  - constructor.
  - apply Permutation_app; [apply Hfg; now left|]. apply IH.
    intros z Hz. apply Hfg. now right.
  - assert (Hrest : Permutation (concat (map f l)) (concat (map g l))).
    { clear -Hfg. induction l as [|z l IH]; simpl; [constructor|].
      apply Permutation_app.
      - apply Hfg. simpl. auto.
      - apply IH. intros w Hw. apply Hfg. simpl in *. tauto. }
    rewrite !app_assoc. apply Permutation_app; trivial.
    etransitivity; [apply Permutation_app_comm|].
    apply Permutation_app; apply Hfg; simpl; auto.
  - etransitivity; [apply IH1; exact Hfg|].
    etransitivity; [|apply IH2; intros z Hz; apply Hfg;
                      apply (Permutation_in z (Permutation_sym HP1) Hz)].
    apply Permutation_sym.
    assert (Hl' : forall z, In z l' -> Permutation (f z) (g z)).
    { intros z Hz. apply Hfg, (Permutation_in z (Permutation_sym HP1) Hz). }
    clear -Hl'. induction l' as [|z l' IH]; simpl; [constructor|].
    apply Permutation_app.
    + apply Hl'. now left.
    + apply IH. intros w Hw. apply Hl'. now right.
Qed.

Lemma filter_all {A} (l : list A) : filter (fun _ => true) l = l.
Proof. induction l; simpl; congruence. Qed.

Lemma option_map_filter_all {A} (o : option (list A)) :
  option_map (filter (fun _ => true)) o = o.
Proof. destruct o; simpl; trivial. now rewrite filter_all. Qed.

Lemma is_load_failed_error w : is_load_failed (Cerr ("Error: " ++ w)) = true.
Proof. apply prefix_app. Qed.

Lemma is_not_found_error w : is_not_found (Cerr ("Error: " ++ w)) = false.
Proof. unfold is_not_found. now rewrite prefix_app. Qed.

Lemma count_app kind a b : count kind (a ++ b) = count kind a + count kind b.
Proof. unfold count. now rewrite filter_app, length_app. Qed.

Lemma count_single kind e : count kind [e] = if kind e then 1 else 0.
Proof. unfold count. simpl. now destruct (kind e). Qed.

Lemma count_resolve_top_level evs : count is_resolve evs = length (top_level evs).
Proof.
  unfold count. induction evs as [|e evs IH]; trivial.
  destruct e; simpl; congruence.
Qed.

Lemma Forall2_in_r {A B} (R : A -> B -> Prop) xs ys y :
  Forall2 R xs ys -> In y ys -> exists x, In x xs /\ R x y.
Proof.
  induction 1 as [|x0 y0 xs ys HR HF IH]; intros Hin; [contradiction|].
  destruct Hin as [<-|Hin].
  - exists x0. split; [now left|trivial].
  - destruct (IH Hin) as (x & Hx & HRx). exists x. split; [now right|trivial].
Qed.

Lemma load_attempts_without_load_failed evs :
  load_attempts (without_load_failed evs) = load_attempts evs.
Proof.
  unfold without_load_failed. induction evs as [|e evs IH]; trivial.
  destruct e; cbn [filter is_load_failed negb load_attempts];
    try solve [simpl; congruence].
  destruct (String.prefix "Error: " line); simpl; congruence.
Qed.

Lemma diagnostics_permuted a b :
  Permutation a b -> Permutation (diagnostics a) (diagnostics b).
Proof.
  induction 1 as [|e a b HP IH|e1 e2 a|a b c H1 IH1 H2 IH2].
  - constructor.
  - destruct e; simpl; auto.
  - destruct e1, e2; simpl; auto using perm_swap.
  - etransitivity; eauto.
Qed.

(** A load attempt that throws throws the text of the build's variant,
    and the handler writes one line with it. *)
Lemma load_module_raised sys file what t1 :
  load_module sys file [] = Some (Raised what, t1) ->
  what = load_failure (sys_platform sys) file
  /\ load_report sys file = [Cerr ("Error: " ++ what)].
Proof.
  rewrite load_module_run. unfold load_report.
  destruct (sys_platform sys); destruct (dl_open (sys_fs sys) file);
    intros H; inversion H; subst; auto.
Qed.

(** ** Two walks side by side *)

Lemma emitted_through {A} (m : M A) f :
  option_map f (emitted m) = option_map snd (through f (m [])).
Proof. unfold emitted. now destruct (m []) as [[o evs]|]. Qed.

Lemma through_id {A} (r : option (outcome A * trace)) f :
  (forall evs, f evs = evs) -> through f r = r.
Proof. intros H. destruct r as [[o evs]|]; simpl; trivial. now rewrite H. Qed.

Section Related.
Variable f : trace -> trace.
Hypothesis f_app : forall a b, f (a ++ b) = f a ++ f b.
Variables s1 s2 : system.
Hypothesis same_fs : same_shape (sys_fs s1) (sys_fs s2).
Hypothesis same_report :
  forall x, f (load_report s1 x) = f (load_report s2 x).

Lemma through_shift {A} h (r : option (outcome A * trace)) :
  through f (shift h r) = shift (f h) (through f r).
Proof. destruct r as [[o evs]|]; simpl; trivial. now rewrite f_app. Qed.

Lemma for_each_related {A} (b1 b2 : A -> M unit) xs :
  (forall x t, b1 x t = shift t (b1 x [])) ->
  (forall x t, b2 x t = shift t (b2 x [])) ->
  (forall x, through f (b1 x []) = through f (b2 x [])) ->
  through f (for_each b1 xs []) = through f (for_each b2 xs []).
Proof.
  intros H1 H2 H. induction xs as [|x xs IH]; [reflexivity|].
  rewrite (for_each_cons _ H1), (for_each_cons _ H2).
  specialize (H x).
  destruct (b1 x []) as [[[[]|w1] a1]|], (b2 x []) as [[[[]|w2] a2]|];
    simpl in H; try discriminate; trivial.
  simpl app. rewrite (for_each_frame _ H1), (for_each_frame _ H2).
  rewrite !through_shift, IH. congruence.
Qed.

Lemma load_path_related fuel :
  forall p, through f (load_path fuel s1 p []) = through f (load_path fuel s2 p []).
Proof.
  induction fuel as [|fuel IH]; intros p; [reflexivity|].
  pose proof (same_fs p) as Hp.
  destruct (sys_fs s1 p) as [[r|es|w|w]|] eqn:E1;
    destruct (sys_fs s2 p) as [[r2|es2|w2|w2]|] eqn:E2; try contradiction;
    try subst es2; try subst w2.
  - rewrite (load_path_file _ _ _ _ [] E1), (load_path_file _ _ _ _ [] E2).
    simpl.
    change (Exists p :: IsDirectory p :: LoadModule p :: load_report s1 p)
      with ([Exists p; IsDirectory p; LoadModule p] ++ load_report s1 p).
    change (Exists p :: IsDirectory p :: LoadModule p :: load_report s2 p)
      with ([Exists p; IsDirectory p; LoadModule p] ++ load_report s2 p).
    now rewrite !f_app, same_report.
  - rewrite (run_load_path_dir _ _ _ _ E1), (run_load_path_dir _ _ _ _ E2).
    rewrite !through_shift. f_equal.
    apply for_each_related; auto using load_path_frame.
  - now rewrite (load_path_unreadable _ _ _ _ [] E1),
      (load_path_unreadable _ _ _ _ [] E2).
  - now rewrite (load_path_broken _ _ _ _ [] E1),
      (load_path_broken _ _ _ _ [] E2).
  - now rewrite (load_path_missing _ _ _ [] E1), (load_path_missing _ _ _ [] E2).
Qed.

Hypothesis same_sep :
  env_path_sep (sys_platform s1) = env_path_sep (sys_platform s2).
Hypothesis same_env : forall k, sys_env s1 k = sys_env s2 k.
Hypothesis same_complete : forall raw, sys_complete s1 raw = sys_complete s2 raw.

Lemma visit_related fuel raw :
  through f (visit fuel s1 raw []) = through f (visit fuel s2 raw []).
Proof.
  rewrite !run_visit, !through_shift, <- same_complete.
  now rewrite load_path_related.
Qed.

Lemma load_modules_related fuel :
  through f (load_modules fuel s1 []) = through f (load_modules fuel s2 []).
Proof.
  rewrite !run_load_modules, <- same_env, <- same_sep.
  destruct (sys_env s1 MODULE_PATH_KEY) as [[|c v]|]; trivial.
  rewrite !through_shift. f_equal.
  apply for_each_related; auto using visit_frame, visit_related.
Qed.
End Related.

Lemma same_shape_eq fs1 fs2 : (forall p, fs1 p = fs2 p) -> same_shape fs1 fs2.
Proof.
  intros H p. rewrite (H p). now destruct (fs2 p) as [[r|es|w|w]|].
Qed.

(** ** When a walk finishes *)

Lemma for_each_finishes {A} (body : A -> M unit) xs :
  (forall x t, body x t = shift t (body x [])) ->
  (forall x, In x xs -> exists r, body x [] = Some r) ->
  exists r, for_each body xs [] = Some r.
Proof.
  intros Hf. induction xs as [|y ys IH]; intros H.
  { exists (Done tt, []). reflexivity. }
  destruct (H y (or_introl eq_refl)) as [[[[]|w] a] Ea].
  - destruct IH as [[o b] Eb]; [intros z Hz; apply H; now right|].
    exists (o, a ++ b). rewrite (for_each_cons _ Hf), Ea. simpl app.
    now rewrite (for_each_frame _ Hf), Eb.
  - exists (Raised w, a). now rewrite (for_each_cons _ Hf), Ea.
Qed.

(** A tree of nesting depth [n] is walked within [S n] nested calls,
    to the end or to the first query that fails. *)
Lemma load_path_terminates sys n :
  forall p, nesting_le (sys_fs sys) n p ->
            exists r, load_path (S n) sys p [] = Some r.
Proof.
  induction n as [|n IH]; intros p H; inversion H; subst;
    try (eexists; apply load_path_missing; eassumption);
    try (eexists; eapply load_path_file; eassumption);
    try (eexists; apply load_path_unreadable; eassumption);
    try (eexists; apply load_path_broken; eassumption).
  match goal with
  | E : sys_fs sys p = Some (Directory ?es), F : Forall _ ?es |- _ =>
      destruct (for_each_finishes (load_path (S n) sys) es
                  (load_path_frame (S n) sys)) as [[o b] Eb];
      [ intros x Hx; apply IH; rewrite Forall_forall in F; auto
      | eexists; rewrite (run_load_path_dir _ _ _ _ E), Eb; reflexivity ]
  end.
Qed.

Lemma for_each_stuck {A} (body : A -> M unit) xs :
  (forall x t, body x t = shift t (body x [])) ->
  for_each body xs [] = None ->
  exists x, In x xs /\ body x [] = None.
Proof.
  intros Hf. induction xs as [|x xs IH]; intros H; [discriminate|].
  rewrite (for_each_cons _ Hf) in H.
  destruct (body x []) as [[[[]|w] a]|] eqn:E; [|discriminate|].
  - simpl in H. rewrite (for_each_frame _ Hf) in H.
    destruct (for_each body xs []) as [[o b]|] eqn:Eb; [discriminate|].
    destruct (IH eq_refl) as (y & Hy & Ey). exists y. split; [now right|trivial].
  - exists x. split; [now left|trivial].
Qed.

Lemma stuck_walk_descends sys n :
  forall p, load_path n sys p [] = None -> nested_dirs (sys_fs sys) n p.
Proof.
  induction n as [|n IH]; intros p H; [constructor|].
  destruct (sys_fs sys p) as [[r|es|w|w]|] eqn:E.
  - rewrite (load_path_file _ _ _ _ [] E) in H. discriminate.
  - rewrite (run_load_path_dir _ _ _ _ E) in H.
    destruct (for_each _ es []) as [[o b]|] eqn:Eb; [discriminate|].
    destruct (for_each_stuck _ es (load_path_frame n sys) Eb) as (q & Hq & Eq).
    eapply nested_below; eauto.
  - rewrite (load_path_unreadable _ _ _ _ [] E) in H. discriminate.
  - rewrite (load_path_broken _ _ _ _ [] E) in H. discriminate.
  - rewrite (load_path_missing _ _ _ [] E) in H. discriminate.
Qed.

Lemma for_each_mono {A} (b1 b2 : A -> M unit) :
  (forall x t, b1 x t = shift t (b1 x [])) ->
  (forall x t, b2 x t = shift t (b2 x [])) ->
  (forall x r, b1 x [] = Some r -> b2 x [] = Some r) ->
  forall xs r, for_each b1 xs [] = Some r -> for_each b2 xs [] = Some r.
Proof.
  intros H1 H2 H. induction xs as [|x xs IH]; intros r E; [exact E|].
  rewrite (for_each_cons _ H1) in E. rewrite (for_each_cons _ H2).
  destruct (b1 x []) as [[[[]|w] a]|] eqn:Ea; [| |discriminate];
    rewrite (H x _ Ea); trivial.
  simpl app in *. rewrite (for_each_frame _ H1) in E.
  rewrite (for_each_frame _ H2).
  destruct (for_each b1 xs []) as [r'|] eqn:Eb; [|discriminate].
  now rewrite (IH r' eq_refl).
Qed.

Lemma load_path_S sys fuel :
  forall p r, load_path fuel sys p [] = Some r ->
              load_path (S fuel) sys p [] = Some r.
Proof.
  induction fuel as [|fuel IH]; intros p r H; [discriminate|].
  destruct (sys_fs sys p) as [[d|es|w|w]|] eqn:E.
  - rewrite (load_path_file fuel _ _ _ [] E) in H.
    now rewrite (load_path_file (S fuel) _ _ _ [] E).
  - rewrite (run_load_path_dir fuel _ _ _ E) in H.
    rewrite (run_load_path_dir (S fuel) _ _ _ E).
    destruct (for_each (load_path fuel sys) es []) as [b|] eqn:Eb;
      [|discriminate].
    now rewrite (for_each_mono _ _ (load_path_frame fuel sys)
                   (load_path_frame (S fuel) sys) IH es b Eb).
  - rewrite (load_path_unreadable fuel _ _ _ [] E) in H.
    now rewrite (load_path_unreadable (S fuel) _ _ _ [] E).
  - rewrite (load_path_broken fuel _ _ _ [] E) in H.
    now rewrite (load_path_broken (S fuel) _ _ _ [] E).
  - rewrite (load_path_missing fuel _ _ [] E) in H.
    now rewrite (load_path_missing (S fuel) _ _ [] E).
Qed.

Lemma load_modules_S sys fuel r :
  load_modules fuel sys [] = Some r -> load_modules (S fuel) sys [] = Some r.
Proof.
  rewrite !run_load_modules.
  destruct (sys_env sys MODULE_PATH_KEY) as [[|c v]|]; trivial.
  destruct (for_each (visit fuel sys) _ []) as [b|] eqn:Eb; [|discriminate].
  intros H.
  rewrite (for_each_mono _ _ (visit_frame fuel sys) (visit_frame (S fuel) sys))
    with (r := b); trivial.
  intros raw r'. rewrite !run_visit.
  destruct (load_path fuel sys _ []) as [w|] eqn:Ew; [|discriminate].
  now rewrite (load_path_S _ _ _ _ Ew).
Qed.

Lemma without_load_failed_report sys f :
  filter (fun e => negb (is_load_failed e)) (load_report sys f) = [].
Proof.
  unfold load_report.
  destruct (sys_platform sys); destruct (dl_open (sys_fs sys) f); trivial;
    cbn [filter is_load_failed]; now rewrite prefix_app.
Qed.

Lemma events_of_missing sys fuel p :
  sys_fs sys p = None ->
  events_of (S fuel) sys p = [Exists p; Cerr (not_found p)].
Proof.
  intros E. unfold events_of, emitted. now rewrite (load_path_missing _ _ _ [] E).
Qed.

Lemma events_of_file sys fuel p r :
  sys_fs sys p = Some (File r) ->
  events_of (S fuel) sys p
  = Exists p :: IsDirectory p :: LoadModule p :: load_report sys p.
Proof.
  intros E. unfold events_of, emitted. now rewrite (load_path_file _ _ _ _ [] E).
Qed.

(** * The claims *)

(** C2 (as stated, refuted). On a POSIX build the walk of the plain text
    file [/opt/uhd/b], for which the facility reports "invalid ELF
    header", writes a line that does not contain that text. *)
Lemma facility_text_is_dropped :
  ~ diagnostic_carries_facility_text (sample_system Dlfcn None) "/opt/uhd/b".
Proof.
  intros H.
  destruct (H "invalid ELF header"
              ("Error: " ++ load_failure Dlfcn "/opt/uhd/b")%string) as [_ Hno].
  - reflexivity.
  - left. reflexivity.
  - vm_compute in Hno. discriminate.
Qed.

(** C2 (amended). For every candidate file whose load attempt fails, the
    one line written is "Error: " followed by the fixed failure text of
    the build's variant and the quoted file path: it includes the file
    path, and it is the same line whatever error text the facility
    reports for the file. *)
Theorem load_failed_line_names_file fuel sys file r what t1 :
  sys_fs sys file = Some (File r) ->
  load_module sys file [] = Some (Raised what, t1) ->
  diagnostics (events_of (S fuel) sys file)
  = [("Error: " ++ load_failure (sys_platform sys) file)%string]
  /\ includes file ("Error: " ++ load_failure (sys_platform sys) file)%string = true
  /\ what = load_failure (sys_platform sys) file
  /\ (forall sys' r' what' t1',
        sys_platform sys' = sys_platform sys ->
        sys_fs sys' file = Some (File r') ->
        load_module sys' file [] = Some (Raised what', t1') ->
        diagnostics (events_of (S fuel) sys' file)
        = diagnostics (events_of (S fuel) sys file)).
Proof.
  intros E Hraise.
  destruct (load_module_raised _ _ _ _ Hraise) as [Hwhat Hrep].
  rewrite (events_of_file _ _ _ _ E), Hrep.
  subst what. repeat split; [apply includes_load_failure|].
  intros sys' r' what' t1' Hpf E' Hraise'.
  destruct (load_module_raised _ _ _ _ Hraise') as [Hwhat' Hrep'].
  rewrite (events_of_file _ _ _ _ E'), Hrep'. subst what'. now rewrite Hpf.
Qed.

Lemma load_failed_line_names_file_witness :
  let sys := sample_system Windows None in
  let what := ("LoadLibrary failed to load " ++ quoted "/opt/uhd/b")%string in
  sys_fs sys "/opt/uhd/b" = Some (File (Null "invalid ELF header"))
  /\ load_module sys "/opt/uhd/b" []
     = Some (Raised what, [LoadModule "/opt/uhd/b"])
  /\ diagnostics (events_of 1 sys "/opt/uhd/b") = [("Error: " ++ what)%string]
  /\ includes "/opt/uhd/b" ("Error: " ++ what)%string = true.
Proof.
  intros sys what.
  assert (E : sys_fs sys "/opt/uhd/b" = Some (File (Null "invalid ELF header")))
    by reflexivity.
  assert (R : load_module sys "/opt/uhd/b" []
              = Some (Raised what, [LoadModule "/opt/uhd/b"])) by reflexivity.
  split; [exact E|]. split; [exact R|].
  destruct (load_failed_line_names_file 0 sys "/opt/uhd/b" _ what _ E R)
    as (Hd & Hi & _).
  split; [exact Hd | exact Hi].
Defined.

(** C4. A path that does not exist gets exactly one line, the
    "not found" line, which names it; its walk makes no load attempt,
    opens no directory and consults the filesystem once, for the
    existence test. *)
Theorem missing_path_is_reported fuel sys p t :
  sys_fs sys p = None ->
  load_path (S fuel) sys p t = Some (Done tt, t ++ [Exists p; Cerr (not_found p)])
  /\ diagnostics (events_of (S fuel) sys p) = [not_found p]
  /\ includes p (not_found p) = true
  /\ load_attempts (events_of (S fuel) sys p) = []
  /\ fs_accesses (events_of (S fuel) sys p) = [Exists p].
Proof.
  intros E. split; [now apply load_path_missing|].
  rewrite (events_of_missing _ _ _ E).
  repeat split. apply includes_not_found.
Qed.

Lemma missing_path_is_reported_witness :
  let sys := sample_system Dlfcn (Some "/nowhere") in
  sys_fs sys "/nowhere" = None
  /\ load_path 1 sys "/nowhere" []
     = Some (Done tt, [Exists "/nowhere"; Cerr (not_found "/nowhere")])
  /\ load_attempts (events_of 1 sys "/nowhere") = [].
Proof.
  intros sys.
  assert (E : sys_fs sys "/nowhere" = None) by reflexivity.
  destruct (missing_path_is_reported 0 sys "/nowhere" [] E) as (H1 & _ & _ & H4 & _).
  split; [exact E|]. split; [exact H1 | exact H4].
Defined.

(** C6. With the variable unset or set to the empty string the loader
    reads the environment and returns: nothing is resolved, the
    filesystem is not consulted, no load is attempted and nothing is
    written. *)
Theorem unset_or_empty_does_nothing fuel sys t :
  sys_env sys MODULE_PATH_KEY = None
  \/ sys_env sys MODULE_PATH_KEY = Some EmptyString ->
  let added := [ReadEnv MODULE_PATH_KEY] in
  load_modules fuel sys t = Some (Done tt, t ++ added)
  /\ top_level added = []
  /\ fs_accesses added = []
  /\ load_attempts added = []
  /\ diagnostics added = [].
Proof.
  intros H added. rewrite load_modules_unfold.
  destruct H as [-> | ->]; repeat split.
Qed.

Lemma unset_or_empty_does_nothing_witness :
  sys_env (sample_system Dlfcn (Some "")) MODULE_PATH_KEY = Some EmptyString
  /\ load_modules 0 (sample_system Dlfcn (Some "")) []
     = Some (Done tt, [ReadEnv MODULE_PATH_KEY])
  /\ sys_env (sample_system Windows None) MODULE_PATH_KEY = None
  /\ load_modules 0 (sample_system Windows None) []
     = Some (Done tt, [ReadEnv MODULE_PATH_KEY]).
Proof.
  split; [reflexivity|]. split.
  - exact (proj1 (unset_or_empty_does_nothing 0
             (sample_system Dlfcn (Some "")) [] (or_intror eq_refl))).
  - split; [reflexivity|].
    exact (proj1 (unset_or_empty_does_nothing 0
             (sample_system Windows None) [] (or_introl eq_refl))).
Defined.

(** C8. Two scans that see the same build, the same environment, the
    same working directory and the same filesystem (with the same
    enumeration order and the same answers of the loader for its files)
    add the same events to whatever traces they start from; so the load
    attempts and the lines written are the same, in the same order.  In
    particular a second scan run after a first one repeats it.  The
    loader keeps nothing from one scan to the next: should the answers of
    the loading facility be the only thing that changed, the two scans
    still make the same load attempts and differ in their "load failed"
    lines at most. *)
Theorem scan_is_deterministic fuel s1 s2 t1 t2 :
  same_inputs s1 s2 ->
  emitted (load_modules fuel s1) = emitted (load_modules fuel s2)
  /\ (forall o t1',
        load_modules fuel s1 t1 = Some (o, t1') ->
        exists evs,
          t1' = t1 ++ evs
          /\ load_modules fuel s2 t2 = Some (o, t2 ++ evs)
          /\ load_attempts (t2 ++ evs) = load_attempts t2 ++ load_attempts evs
          /\ diagnostics (t2 ++ evs) = diagnostics t2 ++ diagnostics evs
          /\ load_modules fuel s2 t1' = Some (o, t1' ++ evs))
  /\ (load_modules fuel s1 t1 = None <-> load_modules fuel s2 t2 = None)
  /\ (forall s3,
        same_inputs_but_loader s1 s3 ->
        option_map without_load_failed (emitted (load_modules fuel s1))
        = option_map without_load_failed (emitted (load_modules fuel s3))
        /\ option_map load_attempts (emitted (load_modules fuel s1))
           = option_map load_attempts (emitted (load_modules fuel s3))).
Proof.
  intros (Hpf & Henv & Hcomplete & Hfs).
  assert (Hrun : load_modules fuel s1 [] = load_modules fuel s2 []).
  { rewrite <- (through_id (load_modules fuel s1 []) (fun evs => evs)),
      <- (through_id (load_modules fuel s2 []) (fun evs => evs)); trivial.
    apply load_modules_related; trivial.
    - now apply same_shape_eq.
    - intros x. unfold load_report, dl_open. now rewrite Hpf, Hfs.
    - now rewrite Hpf. }
  assert (Hsame : emitted (load_modules fuel s1) = emitted (load_modules fuel s2)).
  { unfold emitted. now rewrite Hrun. }
  split; [exact Hsame|]. split; [|split].
  - intros o t1'. rewrite (load_modules_frame fuel s1 t1).
    rewrite (load_modules_frame fuel s2 t2), (load_modules_frame fuel s2 t1').
    rewrite <- Hrun.
    destruct (load_modules fuel s1 []) as [[o' evs]|]; [|discriminate].
    intros H. injection H as <- <-. exists evs.
    auto using load_attempts_app, diagnostics_app.
  - rewrite (load_modules_frame fuel s1 t1), (load_modules_frame fuel s2 t2).
    rewrite Hrun.
    destruct (load_modules fuel s2 []) as [[o' evs]|]; simpl; split; congruence.
  - intros s3 (Hpf3 & Henv3 & Hcomplete3 & Hfs3).
    assert (H3 : option_map without_load_failed (emitted (load_modules fuel s1))
                 = option_map without_load_failed (emitted (load_modules fuel s3))).
    { rewrite !emitted_through. f_equal.
      apply load_modules_related; trivial.
      - intros a b. apply filter_app.
      - intros x. unfold without_load_failed.
        now rewrite !without_load_failed_report.
      - now rewrite Hpf3. }
    split; [exact H3|].
    destruct (emitted (load_modules fuel s1)) as [e1|],
      (emitted (load_modules fuel s3)) as [e3|]; try discriminate; trivial.
    simpl in *. injection H3 as H3.
    now rewrite <- (load_attempts_without_load_failed e1), H3,
      load_attempts_without_load_failed.
Qed.

Lemma scan_is_deterministic_witness :
  let s1 := sample_system Dlfcn (Some "/opt/uhd/b:/nowhere") in
  let s2 := on_filesystem sample_fs (on_platform Dlfcn s1) in
  let evs := [ReadEnv MODULE_PATH_KEY;
              Resolve "/opt/uhd/b"; Exists "/opt/uhd/b";
              IsDirectory "/opt/uhd/b"; LoadModule "/opt/uhd/b";
              Cerr ("Error: dlopen failed to load " ++ quoted "/opt/uhd/b");
              Resolve "/nowhere"; Exists "/nowhere";
              Cerr (not_found "/nowhere")] in
  same_inputs s1 s2
  /\ load_modules 1 s1 [] = Some (Done tt, evs)
  /\ load_modules 1 s2 evs = Some (Done tt, evs ++ evs).
Proof.
  intros s1 s2 evs.
  assert (Hin : same_inputs s1 s2) by (repeat split).
  assert (Hrun : load_modules 1 s1 [] = Some (Done tt, evs)) by reflexivity.
  destruct (scan_is_deterministic 1 s1 s2 [] [] Hin) as (_ & Hboth & _).
  destruct (Hboth (Done tt) evs Hrun) as (evs' & Heq & _ & _ & _ & Hagain).
  simpl in Heq. subst evs'.
  split; [exact Hin|]. split; [exact Hrun|exact Hagain].
Defined.

(** ** The top level *)

Lemma walk_resolves_nothing fuel sys p o evs :
  load_path fuel sys p [] = Some (o, evs) -> top_level evs = [].
Proof.
  apply (walk_events_ind sys (fun evs => top_level evs = [])); trivial.
  - intros a b Ha Hb. now rewrite top_level_app, Ha, Hb.
  - intros q r E. simpl. unfold load_report.
    destruct (sys_platform sys); destruct (dl_open (sys_fs sys) q); reflexivity.
Qed.

(** A finished walk began with the existence test of its path. *)
Lemma walk_head fuel sys p o evs :
  load_path fuel sys p [] = Some (o, evs) ->
  exists rest, evs = Exists p :: rest.
Proof.
  destruct fuel as [|fuel]; [discriminate|].
  destruct (sys_fs sys p) as [[r|es|w|w]|] eqn:E.
  - rewrite (load_path_file _ _ _ _ [] E). intros H. injection H as <- <-. eauto.
  - rewrite (run_load_path_dir _ _ _ _ E).
    destruct (for_each _ es []) as [[o' b]|]; [|discriminate].
    intros H. injection H as <- <-. simpl. eauto.
  - rewrite (load_path_unreadable _ _ _ _ [] E). intros H.
    injection H as <- <-. eauto.
  - rewrite (load_path_broken _ _ _ _ [] E). intros H. injection H as <- <-. eauto.
  - rewrite (load_path_missing _ _ _ [] E). intros H. injection H as <- <-. eauto.
Qed.

Lemma visit_inv fuel sys raw o evs :
  visit fuel sys raw [] = Some (o, evs) ->
  exists rest,
    evs = Resolve raw :: Exists (sys_complete sys raw) :: rest
    /\ top_level evs = [raw]
    /\ load_path fuel sys (sys_complete sys raw) []
       = Some (o, Exists (sys_complete sys raw) :: rest).
Proof.
  rewrite run_visit.
  destruct (load_path _ _ _ []) as [[o' w]|] eqn:Ew; [|discriminate].
  intros H. injection H as <- <-.
  destruct (walk_head _ _ _ _ _ Ew) as [rest ->]. exists rest.
  split; [reflexivity|]. split; [|reflexivity].
  pose proof (walk_resolves_nothing _ _ _ _ _ Ew) as T. simpl in *.
  now rewrite T.
Qed.

(** A loop of visits that returned visited every entry, in order; one
    that was left by an exception visited the entries up to the one whose
    walk threw. *)
Lemma visits_inv fuel sys :
  forall es o evs,
    for_each (visit fuel sys) es [] = Some (o, evs) ->
    (exists rest, es = top_level evs ++ rest)
    /\ (o = Done tt ->
        top_level evs = es
        /\ forall raw, In raw es ->
             In (Resolve raw) evs /\ In (Exists (sys_complete sys raw)) evs).
Proof.
  induction es as [|e es IH]; intros o evs H.
  - injection H as <- <-. split; [exists []; reflexivity|].
    intros _. split; [reflexivity|intros raw []].
  - rewrite (for_each_cons _ (visit_frame fuel sys)) in H.
    destruct (visit fuel sys e []) as [[[[]|w] a]|] eqn:Ea; [| |discriminate].
    + simpl app in H. rewrite (for_each_frame _ (visit_frame fuel sys)) in H.
      destruct (for_each _ es []) as [[o' b]|] eqn:Eb; [|discriminate].
      injection H as <- <-.
      destruct (visit_inv _ _ _ _ _ Ea) as (rest & Hev & Htop & _).
      destruct (IH o' b eq_refl) as [[rest' Hrest] Hdone].
      rewrite top_level_app, Htop. split.
      * exists rest'. simpl. now rewrite <- Hrest.
      * intros Ho. destruct (Hdone Ho) as [Hb Hin]. split; [simpl; now rewrite Hb|].
        intros raw [<-|Hraw].
        -- rewrite Hev. split; apply in_or_app; left; simpl; auto.
        -- destruct (Hin raw Hraw). split; apply in_or_app; now right.
    + injection H as <- <-.
      destruct (visit_inv _ _ _ _ _ Ea) as (rest & Hev & Htop & _).
      simpl app. rewrite Htop. split; [exists es; reflexivity|discriminate].
Qed.

Lemma scan_inv fuel sys c v o evs :
  sys_env sys MODULE_PATH_KEY = Some (String c v) ->
  load_modules fuel sys [] = Some (o, evs) ->
  exists b,
    evs = ReadEnv MODULE_PATH_KEY :: b
    /\ for_each (visit fuel sys)
         (split (is_any_of (env_path_sep (sys_platform sys))) (String c v)) []
       = Some (o, b).
Proof.
  intros Henv. rewrite run_load_modules, Henv.
  destruct (for_each _ _ []) as [[o' b]|]; [|discriminate].
  intros H. injection H as <- <-. eauto.
Qed.


Lemma load_modules_terminates sys n :
  walkable sys n -> exists r, load_modules (S n) sys [] = Some r.
Proof.
  intros W.
  destruct (sys_env sys MODULE_PATH_KEY) as [[|c v]|] eqn:E;
    try (eexists; rewrite run_load_modules, E; reflexivity).
  specialize (W _ E). rewrite Forall_forall in W.
  destruct (for_each_finishes (visit (S n) sys)
              (split (is_any_of (env_path_sep (sys_platform sys))) (String c v))
              (visit_frame (S n) sys)) as [[o b] Eb].
  - intros raw Hraw. destruct (load_path_terminates _ _ _ (W _ Hraw)) as [[o w] Ew].
    eexists. rewrite run_visit, Ew. reflexivity.
  - eexists. rewrite run_load_modules, E, Eb. reflexivity.
Qed.

(** ** Filesystems whose queries never fail *)

Lemma readable_walk_returns sys fuel p o evs :
  readable (sys_fs sys) ->
  load_path fuel sys p [] = Some (o, evs) -> o = Done tt.
Proof.
  intros Hr.
  apply (walk_result_ind sys (fun o _ => o = Done tt)); trivial.
  - intros q w E. now destruct (Hr q w).
  - intros q w E. now destruct (Hr q w).
Qed.

Lemma readable_scan_returns sys fuel o evs :
  readable (sys_fs sys) ->
  load_modules fuel sys [] = Some (o, evs) -> o = Done tt.
Proof.
  intros Hr.
  apply (scan_result_ind sys (fun o _ => o = Done tt)); trivial.
  - intros q w E. now destruct (Hr q w).
  - intros q w E. now destruct (Hr q w).
Qed.

Lemma for_each_stuck_at {A} (body : A -> M unit) xs q :
  (forall x t, body x t = shift t (body x [])) ->
  (forall x o evs, body x [] = Some (o, evs) -> o = Done tt) ->
  In q xs -> body q [] = None -> for_each body xs [] = None.
Proof.
  intros Hf Hd. induction xs as [|y ys IH]; intros Hin Hq; [contradiction|].
  rewrite (for_each_cons _ Hf). destruct Hin as [->|Hin].
  - now rewrite Hq.
  - destruct (body y []) as [[o a]|] eqn:Ey; trivial.
    rewrite (Hd _ _ _ Ey). simpl app. rewrite (for_each_frame _ Hf).
    now rewrite (IH Hin Hq).
Qed.

(** Where no query fails, a descent through [n] directories needs more
    than [n] nested calls. *)
Lemma load_path_too_deep sys n :
  readable (sys_fs sys) ->
  forall p, nested_dirs (sys_fs sys) n p -> load_path n sys p [] = None.
Proof.
  intros Hr. induction n as [|n IH]; intros p H; [reflexivity|].
  inversion H; subst.
  rewrite (run_load_path_dir _ _ _ _ H1).
  rewrite (for_each_stuck_at _ es q (load_path_frame n sys)); trivial.
  - intros x o evs. now apply readable_walk_returns.
  - now apply IH.
Qed.

(** C1 (the code breaks it). A failed load is caught, but a failed
    filesystem query is not: the directory test, the existence test and
    the directory loop stand outside the only try block.  With a module
    directory whose first entry cannot be opened, the exception of the
    directory iterator leaves [load_path] (whose comment says it does not
    throw) and then the loader itself; the module next to the locked
    directory and the second configured path are never tried. *)
Theorem unreadable_directory_leaves_the_loader :
  let sys := locked_system "/srv/mods:/srv/extra.so" in
  let walked := [Exists "/srv/mods"; IsDirectory "/srv/mods"; DirIter "/srv/mods";
                 Exists "/srv/mods/locked"; IsDirectory "/srv/mods/locked";
                 DirIter "/srv/mods/locked"] in
  load_path 2 sys "/srv/mods" [] = Some (Raised "Permission denied", walked)
  /\ load_modules 2 sys []
     = Some (Raised "Permission denied",
             ReadEnv MODULE_PATH_KEY :: Resolve "/srv/mods" :: walked)
  /\ (forall extra,
        load_modules (2 + extra) sys []
        = Some (Raised "Permission denied",
                ReadEnv MODULE_PATH_KEY :: Resolve "/srv/mods" :: walked)).
Proof.
  intros sys walked.
  assert (H : load_modules 2 sys []
              = Some (Raised "Permission denied",
                      ReadEnv MODULE_PATH_KEY :: Resolve "/srv/mods" :: walked))
    by reflexivity.
  split; [reflexivity|]. split; [exact H|].
  induction extra as [|extra IH]; [exact H|].
  rewrite Nat.add_succ_r. now apply load_modules_S.
Qed.

(** C3 (the code breaks it). The value is split into its two entries,
    but the walk of the first throws, the exception leaves the loop of
    the static block, and the second entry is neither resolved nor
    visited. *)
Theorem later_entries_are_dropped :
  let sys := locked_system "/srv/mods:/srv/extra.so" in
  split (is_any_of (env_path_sep (sys_platform sys))) "/srv/mods:/srv/extra.so"
  = ["/srv/mods"; "/srv/extra.so"]%string
  /\ exists what evs,
       load_modules 2 sys [] = Some (Raised what, evs)
       /\ top_level evs = ["/srv/mods"]%string
       /\ ~ In (Resolve "/srv/extra.so") evs
       /\ ~ In (LoadModule "/srv/extra.so") evs.
Proof.
  intros sys. split; [reflexivity|].
  exists "Permission denied"%string,
    [ReadEnv MODULE_PATH_KEY; Resolve "/srv/mods";
     Exists "/srv/mods"; IsDirectory "/srv/mods"; DirIter "/srv/mods";
     Exists "/srv/mods/locked"; IsDirectory "/srv/mods/locked";
     DirIter "/srv/mods/locked"].
  split; [reflexivity|]. split; [reflexivity|].
  split; intros H; simpl in H;
    repeat (destruct H as [H|H]; [discriminate|]); exact H.
Qed.

(** C5 (the code breaks it). [/srv/mods] holds a directory that
    cannot be opened and, after it, the module [m.so]; the walk of
    [/srv/mods] ends in the exception of the locked directory, and the
    module under it gets no load attempt. *)
Theorem files_after_a_locked_directory_are_skipped :
  let sys := locked_system "/srv/mods" in
  sys_fs sys "/srv/mods"
  = Some (Directory ["/srv/mods/locked"; "/srv/mods/m.so"])
  /\ sys_fs sys "/srv/mods/m.so" = Some (File Handle)
  /\ reaches (sys_fs sys) "/srv/mods" "/srv/mods/m.so"
  /\ exists what evs,
       load_path 2 sys "/srv/mods" [] = Some (Raised what, evs)
       /\ load_attempts evs = [].
Proof.
  intros sys. split; [reflexivity|]. split; [reflexivity|]. split.
  - eapply reaches_entry; [reflexivity|right; left; reflexivity|apply reaches_self].
  - exists "Permission denied"%string,
      [Exists "/srv/mods"; IsDirectory "/srv/mods"; DirIter "/srv/mods";
       Exists "/srv/mods/locked"; IsDirectory "/srv/mods/locked";
       DirIter "/srv/mods/locked"].
    split; reflexivity.
Qed.



Lemma nested_dirs_bounded fs n :
  forall p m, nesting_le fs n p -> nested_dirs fs m p -> m <= n.
Proof.
  induction n as [|n IH]; intros p m H D; inversion H; subst;
    inversion D; subst; try lia; try congruence.
  match goal with
  | F : Forall _ ?es, E : fs p = Some (Directory ?es),
    E' : fs p = Some (Directory ?es'), I : In ?q ?es',
    N : nested_dirs fs ?k ?q |- _ =>
      assert (es' = es) by congruence; subst es';
      rewrite Forall_forall in F;
      pose proof (IH q k (F q I) N)
  end.
  lia.
Qed.

Lemma sample_fs_nesting : nesting_le sample_fs 2 "/opt/uhd".
Proof.
  apply (nesting_dir _ 1 _ ["/opt/uhd/a"; "/opt/uhd/b"; "/opt/uhd/c"]%string);
    [reflexivity|].
  apply Forall_cons; [apply (nesting_file _ _ _ Handle); reflexivity|].
  apply Forall_cons;
    [apply (nesting_file _ _ _ (Null "invalid ELF header")); reflexivity|].
  apply Forall_cons; [|apply Forall_nil].
  apply (nesting_dir _ 0 _ ["/opt/uhd/c/d"]%string); [reflexivity|].
  apply Forall_cons; [apply (nesting_file _ _ _ Handle); reflexivity|].
  apply Forall_nil.
Defined.

Lemma sample_fs_reordering : same_upto_order sample_fs sample_fs_reordered.
Proof.
  intros q. unfold sample_fs, sample_fs_reordered. cbn [fs_of].
  destruct (String.eqb q "/opt/uhd").
  { exact (Permutation_rev ["/opt/uhd/a"; "/opt/uhd/b"; "/opt/uhd/c"]%string). }
  destruct (String.eqb q "/opt/uhd/a"); [reflexivity|].
  destruct (String.eqb q "/opt/uhd/b"); [reflexivity|].
  destruct (String.eqb q "/opt/uhd/c"); [apply Permutation_refl|].
  destruct (String.eqb q "/opt/uhd/c/d"); [reflexivity|exact I].
Defined.

(** C9. On a finite tree of nesting depth [n] the walk ends within
    [n + 1] nested calls, one per level, by returning or at the first
    query that fails; no descent under the tree is longer than [n].  The
    depth is limited by nothing else: only a descent through [m]
    directories keeps a walk from ending within [m] nested calls, and
    where no query fails every such descent does.  Nor is there a cycle
    guard: a directory that holds a link to itself is walked through its
    own link, forty-one directories deep, until the filesystem refuses
    the path and the exception of that query ends the walk. *)
Theorem walk_depth_follows_nesting sys n p t :
  nesting_le (sys_fs sys) n p ->
  (exists o evs, load_path (S n) sys p t = Some (o, t ++ evs))
  /\ (readable (sys_fs sys) ->
      exists evs, load_path (S n) sys p t = Some (Done tt, t ++ evs))
  /\ (forall m, nested_dirs (sys_fs sys) m p -> m <= n)
  /\ (forall sys' m q t0,
        load_path m sys' q t0 = None -> nested_dirs (sys_fs sys') m q)
  /\ (forall sys' m q t0,
        readable (sys_fs sys') ->
        nested_dirs (sys_fs sys') m q -> load_path m sys' q t0 = None)
  /\ load_path 41 looping_system "/loop" [] = None
  /\ exists evs,
       load_path 42 looping_system "/loop" []
       = Some (Raised "Too many levels of symbolic links", evs)
       /\ count is_dir_iter evs = 41.
Proof.
  intros H.
  destruct (load_path_terminates _ _ _ H) as [[o evs] Hrun].
  split; [exists o, evs; now rewrite load_path_frame, Hrun|].
  split; [|split; [|split; [|split; [|split]]]].
  - intros Hr. exists evs. rewrite load_path_frame, Hrun.
    now rewrite (readable_walk_returns _ _ _ _ _ Hr Hrun).
  - intros m D. now apply (nested_dirs_bounded _ _ _ _ H D).
  - intros sys' m q t0. rewrite load_path_frame.
    destruct (load_path m sys' q []) as [[o' e']|] eqn:E; [discriminate|].
    intros _. now apply stuck_walk_descends.
  - intros sys' m q t0 Hr D.
    now rewrite load_path_frame, (load_path_too_deep _ _ Hr _ D).
  - vm_compute. reflexivity.
  - eexists. split; vm_compute; reflexivity.
Qed.

Lemma walk_depth_follows_nesting_witness :
  let sys := sample_system Dlfcn None in
  nesting_le (sys_fs sys) 2 "/opt/uhd"
  /\ nested_dirs (sys_fs sys) 2 "/opt/uhd"
  /\ (exists o evs, load_path 3 sys "/opt/uhd" [] = Some (o, evs))
  /\ 2 <= 2.
Proof.
  intros sys.
  assert (D : nested_dirs (sys_fs sys) 2 "/opt/uhd").
  { eapply nested_below; [reflexivity|right; right; left; reflexivity|].
    eapply nested_below; [reflexivity|left; reflexivity|].
    apply nested_here. }
  destruct (walk_depth_follows_nesting sys 2 "/opt/uhd" [] sample_fs_nesting)
    as (Hrun & _ & Hdeep & _).
  split; [exact sample_fs_nesting|]. split; [exact D|].
  split; [exact Hrun|exact (Hdeep 2 D)].
Defined.




(** The two values that the separator rule is usually tried on. *)
Example split_keeps_empty_entries :
  split (is_any_of (env_path_sep Dlfcn)) "a::b" = ["a"; ""; "b"]%string
  /\ split (is_any_of (env_path_sep Dlfcn)) "a:" = ["a"; ""]%string
  /\ split (is_any_of (env_path_sep Windows)) ";a" = [""; "a"]%string.
Proof. repeat split. Qed.

(** * Further properties of the loader *)

(** X1. On a build with a loading facility, a file the facility
    accepts is loaded without a word: [load_module] returns exactly when
    the build has a facility and the facility hands back a handle, and
    exactly then the walk of the file writes nothing. *)
Theorem loaded_module_is_silent fuel sys p r t :
  sys_fs sys p = Some (File r) ->
  (load_module sys p t = Some (Done tt, t ++ [LoadModule p])
   <-> sys_platform sys <> Unsupported /\ r = Handle)
  /\ (diagnostics (events_of (S fuel) sys p) = []
      <-> sys_platform sys <> Unsupported /\ r = Handle)
  /\ (sys_platform sys <> Unsupported -> r = Handle ->
      load_path (S fuel) sys p t
      = Some (Done tt, t ++ [Exists p; IsDirectory p; LoadModule p])).
Proof.
  intros E.
  assert (D : dl_open (sys_fs sys) p = r) by (unfold dl_open; now rewrite E).
  rewrite load_module_run, (load_path_file _ _ _ _ t E).
  rewrite (events_of_file _ _ _ _ E).
  destruct (load_report_cases sys p) as [(-> & Hpf & Hd) | (-> & Hwhy)].
  - assert (r = Handle) by congruence. simpl. tauto.
  - assert (Hno : ~ (sys_platform sys <> Unsupported /\ r = Handle)).
    { intros [Hpf Hr]. destruct Hwhy as [Hu | [text Ht]]; congruence. }
    simpl. repeat split; intros; try discriminate; tauto.
Qed.

Lemma loaded_module_is_silent_witness :
  let sys := sample_system Windows None in
  sys_fs sys "/opt/uhd/a" = Some (File Handle)
  /\ diagnostics (events_of 1 sys "/opt/uhd/a") = []
  /\ load_path 1 sys "/opt/uhd/a" []
     = Some (Done tt, [Exists "/opt/uhd/a"; IsDirectory "/opt/uhd/a";
                       LoadModule "/opt/uhd/a"]).
Proof.
  intros sys.
  assert (E : sys_fs sys "/opt/uhd/a" = Some (File Handle)) by reflexivity.
  assert (Hpf : sys_platform sys <> Unsupported) by discriminate.
  destruct (loaded_module_is_silent 0 sys "/opt/uhd/a" Handle [] E)
    as (_ & Hquiet & Hrun).
  split; [exact E|]. split.
  - apply Hquiet. split; [exact Hpf|reflexivity].
  - exact (Hrun Hpf eq_refl).
Defined.

(** X3. A finished scan writes two kinds of lines and no other: the
    "not found" line of a path that was tested and does not exist, and
    the "load failed" line of a file whose load was attempted on a build
    without a facility or was refused by the facility.  The kinds are
    told apart by their first word. *)
Theorem every_line_is_of_two_kinds fuel sys o evs line :
  load_modules fuel sys [] = Some (o, evs) ->
  In (Cerr line) evs ->
  (exists q,
      sys_fs sys q = None /\ line = not_found q /\ In (Exists q) evs
      /\ is_load_failed (Cerr line) = false)
  \/ (exists f r,
        sys_fs sys f = Some (File r)
        /\ line = ("Error: " ++ load_failure (sys_platform sys) f)%string
        /\ In (LoadModule f) evs
        /\ (sys_platform sys = Unsupported \/ exists text, r = Null text)
        /\ is_load_failed (Cerr line) = true).
Proof.
  intros Hrun. revert line.
  apply (scan_events_ind sys
           (fun evs => forall line, In (Cerr line) evs ->
              (exists q,
                  sys_fs sys q = None /\ line = not_found q
                  /\ In (Exists q) evs /\ is_load_failed (Cerr line) = false)
              \/ (exists f r,
                    sys_fs sys f = Some (File r)
                    /\ line = ("Error: " ++ load_failure (sys_platform sys) f)%string
                    /\ In (LoadModule f) evs
                    /\ (sys_platform sys = Unsupported
                        \/ exists text, r = Null text)
                    /\ is_load_failed (Cerr line) = true)))
    with (fuel := fuel) (o := o); trivial.
  - intros line [].
  - intros a b Ha Hb line Hin. apply in_app_or in Hin.
    destruct Hin as [Hin|Hin]; [destruct (Ha line Hin) as [H|H]
                               |destruct (Hb line Hin) as [H|H]].
    + destruct H as (q & ? & ? & ? & ?). left. exists q.
      repeat split; trivial. apply in_or_app. now left.
    + destruct H as (f & r & ? & ? & ? & ? & ?). right. exists f, r.
      repeat split; trivial. apply in_or_app. now left.
    + destruct H as (q & ? & ? & ? & ?). left. exists q.
      repeat split; trivial. apply in_or_app. now right.
    + destruct H as (f & r & ? & ? & ? & ? & ?). right. exists f, r.
      repeat split; trivial. apply in_or_app. now right.
  - intros p E line [H|[H|[]]]; [discriminate|]. injection H as <-.
    left. exists p. repeat split; trivial. simpl. auto.
  - intros p line [H|[]]; discriminate.
  - intros p r E line [H|[H|[H|H]]]; try discriminate.
    assert (D : dl_open (sys_fs sys) p = r) by (unfold dl_open; now rewrite E).
    destruct (load_report_cases sys p) as [(Hrep & _) | (Hrep & Hwhy)];
      rewrite Hrep in H; [destruct H|].
    destruct H as [H|[]]. injection H as <-. right. exists p, r.
    rewrite D in Hwhy.
    repeat split; trivial; [simpl; auto|apply is_load_failed_error].
  - intros p line [H|[H|[H|[]]]]; discriminate.
  - intros line [H|[]]; discriminate.
  - intros raw line [H|[]]; discriminate.
Qed.

Lemma every_line_is_of_two_kinds_witness :
  let sys := sample_system Dlfcn (Some "/opt/uhd/b:/nowhere") in
  let evs := [ReadEnv MODULE_PATH_KEY;
              Resolve "/opt/uhd/b"; Exists "/opt/uhd/b";
              IsDirectory "/opt/uhd/b"; LoadModule "/opt/uhd/b";
              Cerr ("Error: dlopen failed to load " ++ quoted "/opt/uhd/b");
              Resolve "/nowhere"; Exists "/nowhere";
              Cerr (not_found "/nowhere")] in
  load_modules 1 sys [] = Some (Done tt, evs)
  /\ In (Cerr (not_found "/nowhere")) evs
  /\ ((exists q, sys_fs sys q = None /\ not_found "/nowhere" = not_found q
                 /\ In (Exists q) evs
                 /\ is_load_failed (Cerr (not_found "/nowhere")) = false)
      \/ (exists f r,
            sys_fs sys f = Some (File r)
            /\ not_found "/nowhere"
               = ("Error: " ++ load_failure (sys_platform sys) f)%string
            /\ In (LoadModule f) evs
            /\ (sys_platform sys = Unsupported \/ exists text, r = Null text)
            /\ is_load_failed (Cerr (not_found "/nowhere")) = true)).
Proof.
  intros sys evs.
  assert (Hrun : load_modules 1 sys [] = Some (Done tt, evs)) by reflexivity.
  assert (Hin : In (Cerr (not_found "/nowhere")) evs) by (simpl; tauto).
  split; [exact Hrun|]. split; [exact Hin|].
  exact (every_line_is_of_two_kinds 1 sys _ evs _ Hrun Hin).
Defined.

(** X6. The budget of nested calls is only a budget: a walk or a scan
    that returns within some budget returns the same outcome and the
    same trace within every larger one. *)
Theorem larger_budget_same_result fuel extra sys :
  (forall p t r,
      load_path fuel sys p t = Some r ->
      load_path (fuel + extra) sys p t = Some r)
  /\ (forall t r,
        load_modules fuel sys t = Some r ->
        load_modules (fuel + extra) sys t = Some r).
Proof.
  split.
  - intros p t r. rewrite !(load_path_frame _ sys p t).
    destruct (load_path fuel sys p []) as [r0|] eqn:E; [|discriminate].
    intros <-.
    assert (H : load_path (fuel + extra) sys p [] = Some r0).
    { induction extra as [|extra IH].
      - now rewrite Nat.add_0_r.
      - rewrite Nat.add_succ_r. now apply load_path_S. }
    now rewrite H.
  - intros t r. rewrite !(load_modules_frame _ sys t).
    destruct (load_modules fuel sys []) as [r0|] eqn:E; [|discriminate].
    intros <-.
    assert (H : load_modules (fuel + extra) sys [] = Some r0).
    { induction extra as [|extra IH].
      - now rewrite Nat.add_0_r.
      - rewrite Nat.add_succ_r. now apply load_modules_S. }
    now rewrite H.
Qed.

Lemma larger_budget_same_result_witness :
  let sys := sample_system Dlfcn (Some "/opt/uhd/c") in
  let r := (Done tt,
            [ReadEnv MODULE_PATH_KEY;
             Resolve "/opt/uhd/c"; Exists "/opt/uhd/c";
             IsDirectory "/opt/uhd/c"; DirIter "/opt/uhd/c";
             Exists "/opt/uhd/c/d"; IsDirectory "/opt/uhd/c/d";
             LoadModule "/opt/uhd/c/d"]) in
  load_modules 2 sys [] = Some r /\ load_modules (2 + 5) sys [] = Some r.
Proof.
  intros sys r.
  assert (H : load_modules 2 sys [] = Some r) by reflexivity.
  split; [exact H|].
  exact (proj2 (larger_budget_same_result 2 5 sys) [] r H).
Defined.

(** X7. Splitting at the build's separator loses nothing and adds
    nothing, for every value: joining the tokens with the separator
    gives the value back, no token contains a separator, and there is
    one more token than the value has separator characters. *)
Theorem split_is_lossless pf value :
  let sep := env_path_sep pf in
  let es := split (is_any_of sep) value in
  join sep es = value
  /\ Forall (fun e => free_of (is_any_of sep) e = true) es
  /\ length es = S (char_count (is_any_of sep) value).
Proof.
  intros sep es. subst sep es.
  destruct (env_path_sep_char pf) as (c & Hsep & Hc).
  split; [|split].
  - rewrite Hsep. apply join_split, is_any_of_one.
  - apply split_tokens_free.
  - apply split_length.
Qed.

(** X10. The name mapper lets one name through, the module path key,
    and maps every other name to the blank string, which is not a name
    it lets through; so mapping twice is mapping once. *)
Theorem name_mapper_passes_one_name var_name :
  (name_mapper var_name <> EmptyString <-> var_name = MODULE_PATH_KEY)
  /\ (var_name = MODULE_PATH_KEY -> name_mapper var_name = var_name)
  /\ (var_name <> MODULE_PATH_KEY -> name_mapper var_name = EmptyString)
  /\ name_mapper (name_mapper var_name) = name_mapper var_name.
Proof.
  unfold name_mapper.
  destruct (String.eqb var_name MODULE_PATH_KEY) eqn:E.
  - apply String.eqb_eq in E. subst var_name.
    repeat split; try reflexivity; try discriminate; congruence.
  - apply String.eqb_neq in E.
    repeat split; try reflexivity; try congruence; tauto.
Qed.

Lemma name_mapper_passes_one_name_witness :
  MODULE_PATH_KEY = MODULE_PATH_KEY
  /\ name_mapper MODULE_PATH_KEY = MODULE_PATH_KEY
  /\ "uhd_module_path"%string <> MODULE_PATH_KEY
  /\ name_mapper "uhd_module_path" = EmptyString.
Proof.
  assert (Hne : "uhd_module_path"%string <> MODULE_PATH_KEY) by discriminate.
  destruct (name_mapper_passes_one_name MODULE_PATH_KEY) as (_ & Hsame & _).
  destruct (name_mapper_passes_one_name "uhd_module_path") as (_ & _ & Hblank & _).
  split; [reflexivity|]. split; [exact (Hsame eq_refl)|].
  split; [exact Hne|exact (Hblank Hne)].
Defined.

(** X4. In a finished scan the existence tests are accounted for: each
    is followed by a "not found" line, a directory opened or a load
    attempt, except the one at which the scan was left when the status of
    a path could not be read; so in a scan that returned the counts
    agree.  Directory tests are made on existing paths only; there are at
    most as many "load failed" lines as load attempts; and the error
    stream holds nothing but these two kinds of lines. *)
Theorem every_tested_path_is_accounted_for fuel sys o evs :
  load_modules fuel sys [] = Some (o, evs) ->
  let accounted :=
    count is_not_found evs + count is_dir_iter evs + count is_load_module evs in
  (o = Done tt -> count is_exists evs = accounted)
  /\ accounted <= count is_exists evs <= accounted + 1
  /\ count is_is_directory evs
     = count is_dir_iter evs + count is_load_module evs
  /\ count is_load_failed evs <= count is_load_module evs
  /\ length (diagnostics evs)
     = count is_not_found evs + count is_load_failed evs.
Proof.
  intros Hrun accounted. subst accounted.
  apply (scan_result_ind sys
           (fun o evs =>
              (o = Done tt ->
               count is_exists evs
               = count is_not_found evs + count is_dir_iter evs
                 + count is_load_module evs)
              /\ count is_not_found evs + count is_dir_iter evs
                 + count is_load_module evs <= count is_exists evs
                 <= count is_not_found evs + count is_dir_iter evs
                    + count is_load_module evs + 1
              /\ count is_is_directory evs
                 = count is_dir_iter evs + count is_load_module evs
              /\ count is_load_failed evs <= count is_load_module evs
              /\ length (diagnostics evs)
                 = count is_not_found evs + count is_load_failed evs))
    with (fuel := fuel); trivial.
  - unfold count. simpl. repeat split; lia.
  - intros a o' b (A1 & A0 & A2 & A3 & A4) (B1 & B0 & B2 & B3 & B4).
    specialize (A1 eq_refl).
    rewrite !count_app, diagnostics_app, length_app.
    repeat split; try lia. intros Ho. specialize (B1 Ho). lia.
  - intros p E. unfold count. simpl. repeat split; lia.
  - intros p w E. unfold count. simpl. repeat split; try lia; try discriminate.
  - intros p r E.
    change (Exists p :: IsDirectory p :: LoadModule p :: load_report sys p)
      with ([Exists p; IsDirectory p; LoadModule p] ++ load_report sys p).
    rewrite !count_app, diagnostics_app, length_app.
    destruct (load_report_cases sys p) as [(-> & _) | (-> & _)].
    + unfold count. simpl. repeat split; lia.
    + rewrite !count_single, is_load_failed_error, is_not_found_error.
      unfold count. simpl. repeat split; lia.
  - intros p es E. unfold count. simpl. repeat split; lia.
  - intros p w E. unfold count. simpl. repeat split; try lia; try discriminate.
  - unfold count. simpl. repeat split; lia.
  - intros raw. unfold count. simpl. repeat split; lia.
Qed.

Lemma every_tested_path_is_accounted_for_witness :
  let sys := sample_system Unsupported (Some "/opt/uhd:/nowhere") in
  exists evs,
    load_modules 3 sys [] = Some (Done tt, evs)
    /\ count is_exists evs = 6
    /\ count is_exists evs
       = count is_not_found evs + count is_dir_iter evs
         + count is_load_module evs
    /\ count is_load_failed evs <= count is_load_module evs.
Proof.
  intros sys.
  destruct (load_modules 3 sys []) as [[o evs]|] eqn:Hrun; [|discriminate].
  assert (Ho : o = Done tt) by (vm_compute in Hrun; congruence).
  assert (Hcount : count is_exists evs = 6)
    by (vm_compute in Hrun; injection Hrun as _ <-; reflexivity).
  subst o. exists evs.
  destruct (every_tested_path_is_accounted_for 3 sys _ evs Hrun)
    as (H1 & _ & _ & H3 & _).
  split; [reflexivity|]. split; [exact Hcount|].
  split; [exact (H1 eq_refl)|exact H3].
Defined.

Lemma walk_reads_no_env fuel sys p o evs :
  load_path fuel sys p [] = Some (o, evs) -> count is_read_env evs = 0.
Proof.
  apply (walk_events_ind sys (fun evs => count is_read_env evs = 0)); trivial.
  - intros a b Ha Hb. rewrite count_app. lia.
  - intros q r E. unfold load_report.
    destruct (sys_platform sys); destruct (dl_open (sys_fs sys) q); reflexivity.
Qed.

Lemma visits_read_no_env fuel sys es o evs :
  for_each (visit fuel sys) es [] = Some (o, evs) -> count is_read_env evs = 0.
Proof.
  apply (loop_result_ind (fun _ evs => count is_read_env evs = 0)
           eq_refl) with (body := visit fuel sys).
  - intros a o' b Ha Hb. rewrite count_app. lia.
  - apply visit_frame.
  - intros raw o' c Hc. destruct (visit_inv _ _ _ _ _ Hc) as (rest & -> & _ & Hw).
    apply walk_reads_no_env in Hw. unfold count in *. simpl in *. exact Hw.
Qed.

(** X8. Whatever non-empty value the variable holds, a finished scan
    has read the environment once, before anything else, and has
    resolved tokens of the value one by one in their order, starting with
    the first: all of them when it returned, so that it made one more
    top-level visit than the value has separator characters, and those up
    to the entry whose walk threw otherwise. *)
Theorem every_value_is_visited_token_by_token fuel sys value o evs :
  sys_env sys MODULE_PATH_KEY = Some value ->
  value <> EmptyString ->
  load_modules fuel sys [] = Some (o, evs) ->
  let pred := is_any_of (env_path_sep (sys_platform sys)) in
  (exists rest, evs = ReadEnv MODULE_PATH_KEY :: rest
                /\ count is_read_env rest = 0)
  /\ (exists later, split pred value = top_level evs ++ later)
  /\ 1 <= count is_resolve evs <= S (char_count pred value)
  /\ (o = Done tt ->
      top_level evs = split pred value
      /\ count is_resolve evs = S (char_count pred value)).
Proof.
  intros Henv Hne Hrun pred.
  destruct value as [|c v]; [congruence|].
  destruct (scan_inv _ _ _ _ _ _ Henv Hrun) as (b & -> & Hb).
  destruct (visits_inv _ _ _ _ _ Hb) as [[later Hlater] Hdone].
  fold pred in Hlater.
  assert (Hlen : length (split pred (String c v)) = S (char_count pred (String c v)))
    by apply split_length.
  split; [|split; [|split]].
  - exists b. split; trivial. now apply (visits_read_no_env fuel sys _ _ _ Hb).
  - exists later. exact Hlater.
  - rewrite count_resolve_top_level. simpl top_level.
    split; [|rewrite Hlater, length_app in Hlen; lia].
    clear Hlater Hdone.
    destruct (split pred (String c v)) as [|e0 es] eqn:Es; [discriminate|].
    fold pred in Hb. rewrite Es in Hb.
    rewrite (for_each_cons _ (visit_frame fuel sys)) in Hb.
    destruct (visit fuel sys e0 []) as [[[[]|w] a]|] eqn:Ea; [| |discriminate];
      destruct (visit_inv _ _ _ _ _ Ea) as (tl & -> & _ & _).
    + simpl app in Hb. rewrite (for_each_frame _ (visit_frame fuel sys)) in Hb.
      destruct (for_each _ es []) as [[o' b']|]; [|discriminate].
      injection Hb as <- <-. simpl. lia.
    + injection Hb as <- <-. simpl. lia.
  - intros Ho. destruct (Hdone Ho) as [Htop _]. fold pred in Htop.
    split; [exact Htop|].
    rewrite count_resolve_top_level. simpl top_level. now rewrite Htop.
Qed.

Lemma every_value_is_visited_token_by_token_witness :
  let sys := sample_system Windows (Some ";/opt/uhd/a;;") in
  exists evs,
    sys_env sys MODULE_PATH_KEY = Some ";/opt/uhd/a;;"%string
    /\ load_modules 1 sys [] = Some (Done tt, evs)
    /\ top_level evs = [""; "/opt/uhd/a"; ""; ""]%string
    /\ count is_resolve evs = 4.
Proof.
  intros sys.
  destruct (load_modules 1 sys []) as [[o evs]|] eqn:Hrun; [|discriminate].
  assert (Ho : o = Done tt) by (vm_compute in Hrun; congruence).
  subst o. exists evs.
  assert (Henv : sys_env sys MODULE_PATH_KEY = Some ";/opt/uhd/a;;"%string)
    by reflexivity.
  assert (Hne : ";/opt/uhd/a;;"%string <> EmptyString) by discriminate.
  destruct (every_value_is_visited_token_by_token 1 sys _ _ evs Henv Hne Hrun)
    as (_ & _ & _ & Hdone).
  destruct (Hdone eq_refl) as [Htop Hcount].
  split; [exact Henv|]. split; [reflexivity|].
  split; [exact Htop|exact Hcount].
Defined.




Lemma for_each_in {A} (body : A -> M unit) e :
  (forall x t, body x t = shift t (body x [])) ->
  forall xs o evs,
    for_each body xs [] = Some (o, evs) -> In e evs ->
    exists x o' c, In x xs /\ body x [] = Some (o', c) /\ In e c.
Proof.
  intros Hf. induction xs as [|y ys IH]; intros o evs H Hin.
  - injection H as <- <-. contradiction.
  - rewrite (for_each_cons _ Hf) in H.
    destruct (body y []) as [[[[]|w] a]|] eqn:Ey; [| |discriminate].
    + simpl app in H. rewrite (for_each_frame _ Hf) in H.
      destruct (for_each body ys []) as [[o' b]|] eqn:Eb; [|discriminate].
      injection H as <- <-. apply in_app_or in Hin. destruct Hin as [Hin|Hin].
      * exists y, (Done tt), a. repeat split; trivial. now left.
      * destruct (IH _ _ eq_refl Hin) as (x & o'' & c & Hx & Hc & Hec).
        exists x, o'', c. repeat split; trivial. now right.
    + injection H as <- <-. exists y, (Raised w), a.
      repeat split; trivial. now left.
Qed.

Lemma load_report_has_no_path sys x e :
  In e (load_report sys x) -> path_of e = None.
Proof.
  destruct (load_report_cases sys x) as [(-> & _) | (-> & _)]; [intros []|].
  intros [<-|[]]. reflexivity.
Qed.

Lemma walk_stays_below sys fuel :
  forall p o evs,
    load_path fuel sys p [] = Some (o, evs) ->
    forall e q, In e evs -> path_of e = Some q -> reaches (sys_fs sys) p q.
Proof.
  induction fuel as [|fuel IH]; intros p o evs H e q Hin Hq; [discriminate|].
  destruct (sys_fs sys p) as [[r|es|w|w]|] eqn:E.
  - rewrite (load_path_file _ _ _ _ [] E) in H. injection H as <- <-.
    destruct Hin as [<-|[<-|[<-|Hin]]];
      try (injection Hq as <-; apply reaches_self).
    rewrite (load_report_has_no_path _ _ _ Hin) in Hq. discriminate.
  - rewrite (run_load_path_dir _ _ _ _ E) in H.
    destruct (for_each _ es []) as [[o' b]|] eqn:Eb; [|discriminate].
    injection H as <- <-.
    destruct Hin as [<-|[<-|[<-|Hin]]];
      try (injection Hq as <-; apply reaches_self).
    destruct (for_each_in _ e (load_path_frame fuel sys) _ _ _ Eb Hin)
      as (x & o'' & c & Hx & Hc & Hec).
    eapply reaches_entry; eauto.
  - rewrite (load_path_unreadable _ _ _ _ [] E) in H. injection H as <- <-.
    destruct Hin as [<-|[<-|[<-|[]]]]; injection Hq as <-; apply reaches_self.
  - rewrite (load_path_broken _ _ _ _ [] E) in H. injection H as <- <-.
    destruct Hin as [<-|[]]. injection Hq as <-. apply reaches_self.
  - rewrite (load_path_missing _ _ _ [] E) in H. injection H as <- <-.
    destruct Hin as [<-|[<-|[]]]; [|discriminate].
    injection Hq as <-. apply reaches_self.
Qed.

(** X12. A finished scan has tested, opened or tried to load only
    paths that are a resolved entry of the variable or lie under one:
    it never touches the filesystem anywhere else. *)
Theorem scan_stays_under_entries fuel sys o evs e q :
  load_modules fuel sys [] = Some (o, evs) ->
  In e evs ->
  path_of e = Some q ->
  exists raw,
    In raw (entries_of sys)
    /\ reaches (sys_fs sys) (sys_complete sys raw) q.
Proof.
  intros Hrun Hin Hq. rewrite run_load_modules in Hrun. unfold entries_of.
  destruct (sys_env sys MODULE_PATH_KEY) as [[|c v]|];
    try (injection Hrun as <- <-; destruct Hin as [<-|[]]; discriminate).
  destruct (for_each _ _ []) as [[o' b]|] eqn:Eb; [|discriminate].
  injection Hrun as <- <-.
  destruct Hin as [<-|Hin]; [discriminate|].
  destruct (for_each_in _ e (visit_frame fuel sys) _ _ _ Eb Hin)
    as (raw & o'' & c0 & Hraw & Hc & Hec).
  destruct (visit_inv _ _ _ _ _ Hc) as (rest & -> & _ & Hw).
  destruct Hec as [<-|Hec]; [discriminate|].
  exists raw. split; [exact Hraw|].
  exact (walk_stays_below _ _ _ _ _ Hw _ _ Hec Hq).
Qed.

Lemma scan_stays_under_entries_witness :
  let sys := sample_system Dlfcn (Some "/opt/uhd/c") in
  let evs := [ReadEnv MODULE_PATH_KEY;
              Resolve "/opt/uhd/c"; Exists "/opt/uhd/c";
              IsDirectory "/opt/uhd/c"; DirIter "/opt/uhd/c";
              Exists "/opt/uhd/c/d"; IsDirectory "/opt/uhd/c/d";
              LoadModule "/opt/uhd/c/d"] in
  load_modules 2 sys [] = Some (Done tt, evs)
  /\ In (LoadModule "/opt/uhd/c/d") evs
  /\ exists raw,
       In raw (entries_of sys)
       /\ reaches (sys_fs sys) (sys_complete sys raw) "/opt/uhd/c/d".
Proof.
  intros sys evs.
  assert (Hrun : load_modules 2 sys [] = Some (Done tt, evs)) by reflexivity.
  assert (Hin : In (LoadModule "/opt/uhd/c/d") evs) by (simpl; tauto).
  split; [exact Hrun|]. split; [exact Hin|].
  exact (scan_stays_under_entries 2 sys _ evs _ _ Hrun Hin eq_refl).
Defined.

Lemma for_each_app {A} (body : A -> M unit) :
  (forall x t, body x t = shift t (body x [])) ->
  forall xs ys ex o ey,
    for_each body xs [] = Some (Done tt, ex) ->
    for_each body ys [] = Some (o, ey) ->
    for_each body (xs ++ ys) [] = Some (o, ex ++ ey).
Proof.
  intros Hf. induction xs as [|x xs IH]; intros ys ex o ey Hx Hy.
  - injection Hx as <-. exact Hy.
  - rewrite (for_each_cons _ Hf) in Hx. simpl app.
    rewrite (for_each_cons _ Hf).
    destruct (body x []) as [[[[]|w] a]|] eqn:Ea; try discriminate.
    simpl app in *. rewrite (for_each_frame _ Hf) in Hx.
    rewrite (for_each_frame _ Hf).
    destruct (for_each body xs []) as [[o' b]|] eqn:Eb; [|discriminate].
    injection Hx as -> <-.
    rewrite (IH ys b o ey eq_refl Hy). simpl. now rewrite app_assoc.
Qed.

Lemma visits_with_value fuel sys v es :
  for_each (visit fuel (with_value v sys)) es []
  = for_each (visit fuel sys) es [].
Proof.
  rewrite <- (through_id (for_each (visit fuel (with_value v sys)) es [])
                (fun evs => evs)); trivial.
  rewrite <- (through_id (for_each (visit fuel sys) es []) (fun evs => evs));
    trivial.
  apply for_each_related; auto using visit_frame.
  intros raw. apply visit_related; trivial.
  now apply same_shape_eq.
Qed.

Lemma scan_of_value fuel sys c v o evs :
  load_modules fuel (with_value (String c v) sys) [] = Some (o, evs) <->
  exists b,
    evs = ReadEnv MODULE_PATH_KEY :: b
    /\ for_each (visit fuel sys)
         (split (is_any_of (env_path_sep (sys_platform sys))) (String c v)) []
       = Some (o, b).
Proof.
  rewrite run_load_modules.
  change (sys_env (with_value (String c v) sys) MODULE_PATH_KEY)
    with (Some (String c v)).
  change (sys_platform (with_value (String c v) sys)) with (sys_platform sys).
  cbv beta iota. rewrite visits_with_value.
  destruct (for_each _ _ []) as [[o' b]|]; simpl; split.
  - intros H. injection H as <- <-. eauto.
  - intros (b' & -> & H). injection H as <- <-. reflexivity.
  - discriminate.
  - intros (b' & _ & H). discriminate.
Qed.

(** X13. Values compose: the scan of two non-empty values joined by
    the build's separator does what the scan of the first does and then
    what the scan of the second does, after reading the environment
    once. *)
Theorem scan_of_joined_values fuel sys a b ea eb :
  a <> EmptyString ->
  b <> EmptyString ->
  load_modules fuel (with_value a sys) []
  = Some (Done tt, ReadEnv MODULE_PATH_KEY :: ea) ->
  load_modules fuel (with_value b sys) []
  = Some (Done tt, ReadEnv MODULE_PATH_KEY :: eb) ->
  load_modules fuel
    (with_value (a ++ env_path_sep (sys_platform sys) ++ b) sys) []
  = Some (Done tt, ReadEnv MODULE_PATH_KEY :: ea ++ eb).
Proof.
  intros Ha Hb Hra Hrb.
  destruct a as [|ca a]; [congruence|]. destruct b as [|cb b]; [congruence|].
  apply scan_of_value in Hra. destruct Hra as (ea' & Hea & Hva).
  apply scan_of_value in Hrb. destruct Hrb as (eb' & Heb & Hvb).
  injection Hea as <-. injection Heb as <-.
  destruct (env_path_sep_char (sys_platform sys)) as (c & Hsep & Hc).
  rewrite Hsep in *.
  change (String ca a ++ String c "" ++ String cb b)%string
    with (String ca (a ++ String c (String cb b))).
  apply scan_of_value. exists (ea ++ eb). split; [reflexivity|].
  change (String ca (a ++ String c (String cb b)))
    with (String ca a ++ String c (String cb b))%string.
  rewrite Hsep, (split_app _ _ _ _ Hc).
  now apply (for_each_app _ (visit_frame fuel sys)).
Qed.

Lemma scan_of_joined_values_witness :
  let sys := sample_system Dlfcn None in
  let ea := [Resolve "/opt/uhd/a"; Exists "/opt/uhd/a";
             IsDirectory "/opt/uhd/a"; LoadModule "/opt/uhd/a"] in
  let eb := [Resolve "/nowhere"; Exists "/nowhere";
             Cerr (not_found "/nowhere")] in
  load_modules 1 (with_value "/opt/uhd/a" sys) []
  = Some (Done tt, ReadEnv MODULE_PATH_KEY :: ea)
  /\ load_modules 1 (with_value "/nowhere" sys) []
     = Some (Done tt, ReadEnv MODULE_PATH_KEY :: eb)
  /\ load_modules 1 (with_value "/opt/uhd/a:/nowhere" sys) []
     = Some (Done tt, ReadEnv MODULE_PATH_KEY :: ea ++ eb).
Proof.
  intros sys ea eb.
  assert (Ha : load_modules 1 (with_value "/opt/uhd/a" sys) []
               = Some (Done tt, ReadEnv MODULE_PATH_KEY :: ea)) by reflexivity.
  assert (Hb : load_modules 1 (with_value "/nowhere" sys) []
               = Some (Done tt, ReadEnv MODULE_PATH_KEY :: eb)) by reflexivity.
  split; [exact Ha|]. split; [exact Hb|].
  refine (scan_of_joined_values 1 sys "/opt/uhd/a" "/nowhere" ea eb _ _ Ha Hb);
    discriminate.
Defined.

(** ** The trace as a sequence of steps *)

(** X2. The trace of a finished scan is a sequence of steps of seven
    shapes, and the only shape with a load attempt is the step of an
    existing non-directory: every load attempt, each time it occurs,
    comes right after the existence test and the directory test of the
    same path, and nothing but the "load failed" line of that path
    follows it within the step. *)
Theorem only_tested_files_are_loaded fuel sys o evs :
  load_modules fuel sys [] = Some (o, evs) ->
  exists steps,
    evs = concat steps
    /\ Forall (step sys) steps
    /\ (forall s f,
          In s steps -> In (LoadModule f) s ->
          (exists r, sys_fs sys f = Some (File r))
          /\ s = Exists f :: IsDirectory f :: LoadModule f :: load_report sys f)
    /\ load_attempts evs
       = concat (map load_attempts steps).
Proof.
  intros Hrun.
  assert (Hsteps : exists steps, evs = concat steps /\ Forall (step sys) steps).
  { apply (scan_result_ind sys
             (fun _ evs => exists steps,
                  evs = concat steps /\ Forall (step sys) steps))
      with (fuel := fuel) (o := o); trivial.
    - exists []. split; [reflexivity|constructor].
    - intros a o' b (sa & -> & Ha) (sb & -> & Hb). exists (sa ++ sb).
      split; [now rewrite concat_app|now apply Forall_app].
    - intros p E. exists [[Exists p; Cerr (not_found p)]].
      split; [reflexivity|]. repeat constructor. exact E.
    - intros p w E. exists [[Exists p]]. split; [reflexivity|].
      constructor; [|constructor]. now apply (step_broken _ _ w).
    - intros p r E. eexists [_]. split; [simpl; now rewrite app_nil_r|].
      constructor; [|constructor]. now apply (step_file _ _ r).
    - intros p es E. exists [[Exists p; IsDirectory p; DirIter p]].
      split; [reflexivity|]. constructor; [|constructor].
      now apply (step_dir _ _ es).
    - intros p w E. exists [[Exists p; IsDirectory p; DirIter p]].
      split; [reflexivity|]. constructor; [|constructor].
      now apply (step_unreadable _ _ w).
    - exists [[ReadEnv MODULE_PATH_KEY]]. split; [reflexivity|].
      repeat constructor.
    - intros raw. exists [[Resolve raw]]. split; [reflexivity|].
      repeat constructor. }
  destruct Hsteps as (steps & -> & HF). exists steps.
  split; [reflexivity|]. split; [exact HF|]. split.
  - intros s f Hs Hin. rewrite Forall_forall in HF.
    destruct (HF s Hs) as [|raw|p E|p w E|p r E|p es E|p w E];
      try (simpl in Hin; intuition discriminate).
    destruct Hin as [H|[H|[H|H]]]; try discriminate.
    + injection H as <-. eauto.
    + apply load_report_has_no_path in H. discriminate.
  - apply load_attempts_concat.
Qed.

Lemma only_tested_files_are_loaded_witness :
  let sys := sample_system Dlfcn (Some "/opt/uhd/a:/opt/uhd/a") in
  exists evs steps,
    load_modules 1 sys [] = Some (Done tt, evs)
    /\ evs = concat steps
    /\ Forall (step sys) steps
    /\ load_attempts evs = ["/opt/uhd/a"; "/opt/uhd/a"]%string.
Proof.
  intros sys.
  destruct (load_modules 1 sys []) as [[o evs]|] eqn:Hrun; [|discriminate].
  assert (Ho : o = Done tt) by (vm_compute in Hrun; congruence).
  assert (Ha : load_attempts evs = ["/opt/uhd/a"; "/opt/uhd/a"]%string)
    by (vm_compute in Hrun; injection Hrun as _ <-; reflexivity).
  subst o. exists evs.
  destruct (only_tested_files_are_loaded 1 sys _ evs Hrun)
    as (steps & Hc & HF & _).
  exists steps. split; [reflexivity|]. split; [exact Hc|].
  split; [exact HF|exact Ha].
Defined.

(** ** When the walk ends *)

(** X5. The recursion of the walk runs out of [n] nested calls only
    when a descent through [n] directories starts at its path; so where
    the descents are bounded the walk ends, by returning or at a query
    that fails.  Where no query fails the converse holds too: every
    descent through [n] directories uses up [n] nested calls, and the
    walk returns exactly when the descents are bounded. *)
Theorem walk_stops_only_by_descent sys p t :
  (forall n, load_path n sys p t = None -> nested_dirs (sys_fs sys) n p)
  /\ ((exists n, ~ nested_dirs (sys_fs sys) n p) ->
      exists n o evs, load_path n sys p t = Some (o, t ++ evs))
  /\ (readable (sys_fs sys) ->
      (forall n, nested_dirs (sys_fs sys) n p -> load_path n sys p t = None)
      /\ ((exists n, ~ nested_dirs (sys_fs sys) n p)
          <-> exists n evs, load_path n sys p t = Some (Done tt, t ++ evs))).
Proof.
  assert (Hstuck : forall n,
            load_path n sys p t = None -> nested_dirs (sys_fs sys) n p).
  { intros n. rewrite load_path_frame.
    destruct (load_path n sys p []) as [[o e]|] eqn:E; [discriminate|].
    intros _. now apply stuck_walk_descends. }
  assert (Hends : (exists n, ~ nested_dirs (sys_fs sys) n p) ->
                  exists n o evs, load_path n sys p t = Some (o, t ++ evs)).
  { intros [n Hn]. exists n. rewrite load_path_frame.
    destruct (load_path n sys p []) as [[o e]|] eqn:E;
      [exists o, e; reflexivity|].
    exfalso. apply Hn, Hstuck. now rewrite load_path_frame, E. }
  split; [exact Hstuck|]. split; [exact Hends|].
  intros Hr. split.
  - intros n D. now rewrite load_path_frame, (load_path_too_deep _ _ Hr _ D).
  - split.
    + intros H. destruct (Hends H) as (n & o & evs & Hrun). exists n, evs.
      rewrite Hrun. rewrite load_path_frame in Hrun.
      destruct (load_path n sys p []) as [[o' e]|] eqn:E; [|discriminate].
      injection Hrun as <- _.
      now rewrite (readable_walk_returns _ _ _ _ _ Hr E).
    + intros (n & evs & H). exists n. intros D.
      rewrite load_path_frame, (load_path_too_deep _ _ Hr _ D) in H.
      discriminate.
Qed.

Lemma walk_stops_only_by_descent_witness :
  let sys := sample_system Dlfcn None in
  readable (sys_fs sys)
  /\ ~ nested_dirs (sys_fs sys) 3 "/opt/uhd"
  /\ exists n evs, load_path n sys "/opt/uhd" [] = Some (Done tt, evs).
Proof.
  intros sys.
  assert (Hr : readable (sys_fs sys)).
  { intros q w. unfold sys, sample_system, sample_fs. cbn [sys_fs fs_of].
    repeat (destruct (String.eqb q _); [split; discriminate|]).
    split; discriminate. }
  assert (Hn : ~ nested_dirs (sys_fs sys) 3 "/opt/uhd").
  { intros D. pose proof (nested_dirs_bounded _ _ _ _ sample_fs_nesting D). lia. }
  split; [exact Hr|]. split; [exact Hn|].
  destruct (walk_stops_only_by_descent sys "/opt/uhd" []) as (_ & _ & H).
  exact (proj1 (proj2 (H Hr)) (ex_intro _ 3 Hn)).
Defined.

(** ** Finite trees on which no query fails *)

Lemma readable_nesting_inv fs n p :
  readable fs ->
  nesting_le fs n p ->
  fs p = None
  \/ (exists r, fs p = Some (File r))
  \/ (exists m es,
        n = S m /\ fs p = Some (Directory es) /\ Forall (nesting_le fs m) es).
Proof.
  intros Hr H. inversion H; subst; eauto.
  - now destruct (Hr p what).
  - now destruct (Hr p what).
  - right. right. eauto.
Qed.

Lemma for_each_done_all {A} (body : A -> M unit) (ev : A -> trace) :
  (forall x t, body x t = shift t (body x [])) ->
  forall xs,
    (forall x, In x xs -> body x [] = Some (Done tt, ev x)) ->
    for_each body xs [] = Some (Done tt, concat (map ev xs)).
Proof.
  intros Hf. induction xs as [|y ys IH]; intros H; [reflexivity|].
  rewrite (for_each_cons _ Hf), (H y (or_introl eq_refl)). simpl app.
  rewrite (for_each_frame _ Hf), IH; [reflexivity|].
  intros x Hx. apply H. now right.
Qed.

Lemma readable_tree_run sys n p :
  readable (sys_fs sys) ->
  nesting_le (sys_fs sys) n p ->
  load_path (S n) sys p [] = Some (Done tt, events_of (S n) sys p).
Proof.
  intros Hr H. destruct (load_path_terminates _ _ _ H) as [[o evs] Hrun].
  unfold events_of, emitted. rewrite Hrun.
  now rewrite (readable_walk_returns _ _ _ _ _ Hr Hrun).
Qed.

Lemma events_of_dir sys n p es :
  readable (sys_fs sys) ->
  sys_fs sys p = Some (Directory es) ->
  Forall (nesting_le (sys_fs sys) n) es ->
  events_of (S (S n)) sys p =
  Exists p :: IsDirectory p :: DirIter p
    :: concat (map (events_of (S n) sys) es).
Proof.
  intros Hr E H. unfold events_of at 1. unfold emitted.
  rewrite (run_load_path_dir _ _ _ _ E).
  rewrite (for_each_done_all _ (events_of (S n) sys) (load_path_frame _ sys));
    [reflexivity|].
  intros x Hx. apply readable_tree_run; trivial.
  rewrite Forall_forall in H. auto.
Qed.

Lemma attempts_of_file sys fuel p r :
  sys_fs sys p = Some (File r) ->
  load_attempts (events_of (S fuel) sys p) = [p].
Proof.
  intros E. rewrite (events_of_file _ _ _ _ E). simpl.
  now rewrite load_attempts_report.
Qed.

Lemma attempts_of_missing sys fuel p :
  sys_fs sys p = None -> load_attempts (events_of (S fuel) sys p) = [].
Proof. intros E. now rewrite (events_of_missing _ _ _ E). Qed.

Lemma attempts_of_dir sys n p es :
  readable (sys_fs sys) ->
  sys_fs sys p = Some (Directory es) ->
  Forall (nesting_le (sys_fs sys) n) es ->
  load_attempts (events_of (S (S n)) sys p)
  = concat (map (fun e => load_attempts (events_of (S n) sys e)) es).
Proof.
  intros Hr E H. rewrite (events_of_dir _ _ _ _ Hr E H). simpl.
  now rewrite load_attempts_concat, map_map.
Qed.

Lemma attempts_reach sys n :
  readable (sys_fs sys) ->
  forall p f,
    nesting_le (sys_fs sys) n p ->
    (In f (load_attempts (events_of (S n) sys p))
     <-> reaches (sys_fs sys) p f /\ exists r, sys_fs sys f = Some (File r)).
Proof.
  intros Hr. induction n as [|n IH]; intros p f H;
    destruct (readable_nesting_inv _ _ _ Hr H)
      as [E | [[r E] | (m & es & Hn & E & F)]];
    try discriminate;
    try (rewrite (attempts_of_missing _ _ _ E); split; [contradiction|];
         intros [R [r Hf]]; inversion R; subst; congruence);
    try (rewrite (attempts_of_file _ _ _ _ E); split;
         [ intros [<-|[]]; split; [constructor|eauto]
         | intros [R _]; inversion R; subst; [now left|congruence] ]).
  injection Hn as <-.
  rewrite (attempts_of_dir _ _ _ _ Hr E F), in_concat.
  rewrite Forall_forall in F. split.
  - intros (l & Hl & Hf). apply in_map_iff in Hl. destruct Hl as (e & <- & He).
    apply (IH e f (F e He)) in Hf. destruct Hf as [R Hfile].
    split; trivial. eapply reaches_entry; eauto.
  - intros [R Hfile]. inversion R; subst.
    + destruct Hfile as [r Hfile]. congruence.
    + match goal with
      | I : In ?e ?es', Re : reaches _ ?e f |- _ =>
          assert (es' = es) by congruence; subst es';
          exists (load_attempts (events_of (S n) sys e)); split;
          [ apply in_map_iff; eauto | apply (IH e f (F e I)); auto ]
      end.
Qed.

Lemma attempts_listing sys n :
  readable (sys_fs sys) ->
  forall p,
    nesting_le (sys_fs sys) n p ->
    load_attempts (events_of (S n) sys p) = files_under (S n) (sys_fs sys) p.
Proof.
  intros Hr. induction n as [|n IH]; intros p H;
    destruct (readable_nesting_inv _ _ _ Hr H)
      as [E | [[r E] | (m & es & Hn & E & F)]];
    try discriminate;
    try (rewrite (attempts_of_missing _ _ _ E); simpl; now rewrite E);
    try (rewrite (attempts_of_file _ _ _ _ E); simpl; now rewrite E).
  injection Hn as <-.
  rewrite (attempts_of_dir _ _ _ _ Hr E F).
  cbn [files_under]. rewrite E, flat_map_concat_map. f_equal.
  apply map_ext_in. intros e He. apply IH. rewrite Forall_forall in F. auto.
Qed.

Lemma files_under_shape fs1 fs2 :
  same_shape fs1 fs2 ->
  forall k p, files_under k fs1 p = files_under k fs2 p.
Proof.
  intros Hs. induction k as [|k IH]; intros p; trivial.
  simpl. pose proof (Hs p) as Hp.
  destruct (fs1 p) as [[r1|es1|w1|w1]|], (fs2 p) as [[r2|es2|w2|w2]|];
    try contradiction; trivial.
  subst es2. apply flat_map_ext. exact IH.
Qed.

Lemma readable_upto_order fs1 fs2 :
  same_upto_order fs1 fs2 -> readable fs1 -> readable fs2.
Proof.
  intros Hs Hr p w. pose proof (Hs p) as Hp.
  destruct (fs1 p) as [[r1|es1|w1|w1]|] eqn:E1;
    destruct (fs2 p) as [[r2|es2|w2|w2]|]; try contradiction;
    try (split; discriminate);
    now destruct (Hr p w1) as [H1 H2]; rewrite E1 in H1, H2.
Qed.

Lemma nesting_upto_order fs1 fs2 :
  same_upto_order fs1 fs2 ->
  forall n p, nesting_le fs1 n p -> nesting_le fs2 n p.
Proof.
  intros Hs. induction n as [|n IH]; intros p H; pose proof (Hs p) as Hp;
    inversion H; subst;
    match goal with E : fs1 p = _ |- _ => rewrite E in Hp end;
    destruct (fs2 p) as [[r2|es2|w2|w2]|] eqn:E2; try contradiction;
    eauto using nesting_le.
  eapply nesting_dir; eauto. apply Forall_forall. intros e He.
  apply IH. rewrite Forall_forall in H2. apply H2.
  apply (Permutation_in e (Permutation_sym Hp) He).
Qed.

Lemma events_upto_order s1 s2 :
  sys_platform s1 = sys_platform s2 ->
  same_upto_order (sys_fs s1) (sys_fs s2) ->
  readable (sys_fs s1) ->
  forall n p,
    nesting_le (sys_fs s1) n p ->
    Permutation (events_of (S n) s1 p) (events_of (S n) s2 p).
Proof.
  intros Hpf Hsame Hr.
  pose proof (readable_upto_order _ _ Hsame Hr) as Hr2.
  induction n as [|n IH]; intros p H; pose proof (Hsame p) as Hp;
    destruct (readable_nesting_inv _ _ _ Hr H)
      as [E | [[r E] | (m & es & Hn & E & F)]];
    try discriminate; rewrite E in Hp;
    destruct (sys_fs s2 p) as [[r2|es2|w2|w2]|] eqn:E2; try contradiction;
    try (rewrite (events_of_missing _ _ _ E), (events_of_missing _ _ _ E2);
         apply Permutation_refl);
    try (subst r2;
         rewrite (events_of_file _ _ _ _ E), (events_of_file _ _ _ _ E2);
         unfold load_report, dl_open; rewrite E, E2, Hpf;
         apply Permutation_refl).
  injection Hn as <-.
  assert (F2 : Forall (nesting_le (sys_fs s2) n) es2).
  { apply Forall_forall. intros e He.
    apply (nesting_upto_order _ _ Hsame). rewrite Forall_forall in F. apply F.
    apply (Permutation_in e (Permutation_sym Hp) He). }
  rewrite (events_of_dir _ _ _ _ Hr E F), (events_of_dir _ _ _ _ Hr2 E2 F2).
  do 3 apply perm_skip. apply Permutation_concat_map; trivial.
  intros e He. apply IH. rewrite Forall_forall in F. auto.
Qed.

Lemma sample_fs_readable : readable sample_fs.
Proof.
  intros q w. unfold sample_fs. cbn [fs_of].
  repeat (destruct (String.eqb q _); [split; discriminate|]).
  split; discriminate.
Defined.

(** X9. Where no filesystem query fails and every configured path is
    a finite tree, the scan returns and its load attempts are a plain
    listing: for each entry of the variable in turn, the files under the
    resolved entry, depth first in enumeration order.  Nothing is
    remembered from one entry to the next, so a file under two entries is
    attempted twice; and since the listing looks at neither the build
    nor the answers of the loader, a file that fails to load delays or
    removes no later attempt. *)
Theorem load_attempts_are_the_listing sys n :
  readable (sys_fs sys) ->
  walkable sys n ->
  exists evs,
    load_modules (S n) sys [] = Some (Done tt, evs)
    /\ load_attempts evs
       = flat_map (fun raw =>
                     files_under (S n) (sys_fs sys) (sys_complete sys raw))
                  (entries_of sys)
    /\ (forall fs' k p,
          same_shape (sys_fs sys) fs' ->
          files_under k (sys_fs sys) p = files_under k fs' p).
Proof.
  intros Hr W. unfold entries_of. rewrite run_load_modules.
  destruct (sys_env sys MODULE_PATH_KEY) as [[|c v]|] eqn:Henv;
    try (eexists; split; [reflexivity|];
         split; [reflexivity|]; intros; now apply files_under_shape).
  specialize (W _ Henv). rewrite Forall_forall in W.
  rewrite (for_each_done_all _
             (fun raw => Resolve raw :: events_of (S n) sys (sys_complete sys raw))
             (visit_frame (S n) sys)).
  - eexists. split; [reflexivity|]. split.
    + cbn [app load_attempts].
      rewrite load_attempts_concat, map_map, flat_map_concat_map. f_equal.
      apply map_ext_in. intros raw Hraw. cbn [load_attempts].
      now apply attempts_listing, W.
    + intros. now apply files_under_shape.
  - intros raw Hraw. rewrite run_visit, (readable_tree_run _ _ _ Hr (W _ Hraw)).
    reflexivity.
Qed.

Lemma load_attempts_are_the_listing_witness :
  let sys := sample_system Unsupported (Some "/opt/uhd:/opt/uhd/c") in
  readable (sys_fs sys)
  /\ walkable sys 2
  /\ exists evs,
       load_modules 3 sys [] = Some (Done tt, evs)
       /\ load_attempts evs
          = ["/opt/uhd/a"; "/opt/uhd/b"; "/opt/uhd/c/d"; "/opt/uhd/c/d"]%string.
Proof.
  intros sys.
  assert (W : walkable sys 2).
  { intros value H. injection H as <-.
    apply Forall_cons; [exact sample_fs_nesting|].
    apply Forall_cons; [|apply Forall_nil].
    apply (nesting_dir _ 1 _ ["/opt/uhd/c/d"]%string); [reflexivity|].
    apply Forall_cons; [apply (nesting_file _ _ _ Handle); reflexivity|].
    apply Forall_nil. }
  split; [exact sample_fs_readable|]. split; [exact W|].
  destruct (load_attempts_are_the_listing sys 2 sample_fs_readable W)
    as (evs & Hrun & Hlist & _).
  exists evs. split; [exact Hrun|]. rewrite Hlist. reflexivity.
Defined.

(** X14. Where no filesystem query fails, the order in which
    directories are enumerated decides the order of the events and
    nothing else: on a finite tree, walks over two enumerations make the
    same tests, open the same directories, attempt the same loads and
    write the same lines, each as often. *)
Theorem enumeration_order_only_reorders s1 s2 n p :
  sys_platform s1 = sys_platform s2 ->
  same_upto_order (sys_fs s1) (sys_fs s2) ->
  readable (sys_fs s1) ->
  nesting_le (sys_fs s1) n p ->
  exists e1 e2,
    load_path (S n) s1 p [] = Some (Done tt, e1)
    /\ load_path (S n) s2 p [] = Some (Done tt, e2)
    /\ Permutation e1 e2
    /\ Permutation (diagnostics e1) (diagnostics e2)
    /\ length e1 = length e2.
Proof.
  intros Hpf Hsame Hr H.
  pose proof (readable_upto_order _ _ Hsame Hr) as Hr2.
  pose proof (nesting_upto_order _ _ Hsame _ _ H) as H'.
  pose proof (events_upto_order s1 s2 Hpf Hsame Hr n p H) as HP.
  exists (events_of (S n) s1 p), (events_of (S n) s2 p).
  split; [now apply readable_tree_run|]. split; [now apply readable_tree_run|].
  split; [exact HP|]. split; [now apply diagnostics_permuted|].
  now apply Permutation_length.
Qed.

Lemma enumeration_order_only_reorders_witness :
  let s1 := sample_system Dlfcn None in
  let s2 := on_filesystem sample_fs_reordered s1 in
  sys_platform s1 = sys_platform s2
  /\ same_upto_order (sys_fs s1) (sys_fs s2)
  /\ readable (sys_fs s1)
  /\ nesting_le (sys_fs s1) 2 "/opt/uhd"
  /\ exists e1 e2,
       load_path 3 s1 "/opt/uhd" [] = Some (Done tt, e1)
       /\ load_path 3 s2 "/opt/uhd" [] = Some (Done tt, e2)
       /\ Permutation e1 e2.
Proof.
  intros s1 s2.
  assert (Hpf : sys_platform s1 = sys_platform s2) by reflexivity.
  split; [exact Hpf|]. split; [exact sample_fs_reordering|].
  split; [exact sample_fs_readable|]. split; [exact sample_fs_nesting|].
  destruct (enumeration_order_only_reorders s1 s2 2 "/opt/uhd" Hpf
              sample_fs_reordering sample_fs_readable sample_fs_nesting)
    as (e1 & e2 & H1 & H2 & HP & _).
  exists e1, e2. split; [exact H1|]. split; [exact H2|exact HP].
Defined.

(** X15. A load attempt that throws is caught where it is made: the
    walk of the file writes exactly one line, "Error: " and the text of
    the exception, and returns, and a loop over candidates goes on with
    the next candidate.  Load failures are the only exceptions the walk
    catches; where no filesystem query fails, no exception leaves
    [load_path] or [load_modules], and on finite trees the loader
    returns, however many files fail to load. *)
Theorem load_failure_is_caught fuel sys file r what t1 rest t :
  sys_fs sys file = Some (File r) ->
  load_module sys file [] = Some (Raised what, t1) ->
  let added := [Exists file; IsDirectory file; LoadModule file;
                Cerr ("Error: " ++ what)] in
  load_path (S fuel) sys file t = Some (Done tt, t ++ added)
  /\ diagnostics added = [("Error: " ++ what)%string]
  /\ for_each (load_path (S fuel) sys) (file :: rest) t
     = for_each (load_path (S fuel) sys) rest (t ++ added)
  /\ (readable (sys_fs sys) ->
      (forall k p t0 o t', load_path k sys p t0 = Some (o, t') -> o = Done tt)
      /\ (forall k t0 o t', load_modules k sys t0 = Some (o, t') -> o = Done tt)
      /\ (forall n t0, walkable sys n ->
            exists evs, load_modules (S n) sys t0 = Some (Done tt, t0 ++ evs))).
Proof.
  intros E Hraise added.
  destruct (load_module_raised _ _ _ _ Hraise) as [Hwhat Hrep].
  assert (Hfile : load_path (S fuel) sys file t = Some (Done tt, t ++ added)).
  { rewrite (load_path_file _ _ _ _ t E), Hrep. reflexivity. }
  split; [exact Hfile|]. split; [reflexivity|]. split.
  - cbn [for_each]. unfold bind at 1. now rewrite Hfile.
  - intros Hr. split; [|split].
    + intros k p t0 o t'. rewrite load_path_frame.
      destruct (load_path k sys p []) as [[o' e]|] eqn:Ek; [|discriminate].
      intros H. injection H as <- _. now apply (readable_walk_returns _ _ _ _ _ Hr Ek).
    + intros k t0 o t'. rewrite load_modules_frame.
      destruct (load_modules k sys []) as [[o' e]|] eqn:Ek; [|discriminate].
      intros H. injection H as <- _. now apply (readable_scan_returns _ _ _ _ Hr Ek).
    + intros n t0 W. destruct (load_modules_terminates sys n W) as [[o evs] Hrun].
      exists evs. rewrite load_modules_frame, Hrun.
      now rewrite (readable_scan_returns _ _ _ _ Hr Hrun).
Qed.

Lemma load_failure_is_caught_witness :
  let sys := sample_system Dlfcn (Some "/opt/uhd") in
  let what := ("dlopen failed to load " ++ quoted "/opt/uhd/b")%string in
  sys_fs sys "/opt/uhd/b" = Some (File (Null "invalid ELF header"))
  /\ load_module sys "/opt/uhd/b" []
     = Some (Raised what, [LoadModule "/opt/uhd/b"])
  /\ for_each (load_path 2 sys) ["/opt/uhd/b"; "/opt/uhd/c"] []
     = for_each (load_path 2 sys) ["/opt/uhd/c"]
         [Exists "/opt/uhd/b"; IsDirectory "/opt/uhd/b";
          LoadModule "/opt/uhd/b"; Cerr ("Error: " ++ what)].
Proof.
  intros sys what.
  assert (E : sys_fs sys "/opt/uhd/b" = Some (File (Null "invalid ELF header")))
    by reflexivity.
  assert (R : load_module sys "/opt/uhd/b" []
              = Some (Raised what, [LoadModule "/opt/uhd/b"])) by reflexivity.
  split; [exact E|]. split; [exact R|].
  exact (proj1 (proj2 (proj2
    (load_failure_is_caught 1 sys "/opt/uhd/b" _ what _
       ["/opt/uhd/c"] [] E R)))).
Defined.

(** X16. Where no filesystem query fails, the walk of a finite tree
    returns and the files it tries to load are exactly the files at any
    depth under its path; enumerating the directories in another order
    permutes the load attempts. *)
Theorem nested_files_are_attempted sys n p t :
  readable (sys_fs sys) ->
  nesting_le (sys_fs sys) n p ->
  exists evs,
    load_path (S n) sys p t = Some (Done tt, t ++ evs)
    /\ (forall f,
          In f (load_attempts evs)
          <-> reaches (sys_fs sys) p f
              /\ exists r, sys_fs sys f = Some (File r))
    /\ (forall sys',
          same_upto_order (sys_fs sys) (sys_fs sys') ->
          exists evs',
            load_path (S n) sys' p t = Some (Done tt, t ++ evs')
            /\ Permutation (load_attempts evs) (load_attempts evs')).
Proof.
  intros Hr H. exists (events_of (S n) sys p).
  split; [now rewrite load_path_frame, (readable_tree_run _ _ _ Hr H)|]. split.
  - intros f. now apply attempts_reach.
  - intros sys' Hsame.
    pose proof (readable_upto_order _ _ Hsame Hr) as Hr'.
    pose proof (nesting_upto_order _ _ Hsame _ _ H) as H'.
    exists (events_of (S n) sys' p).
    split; [now rewrite load_path_frame, (readable_tree_run _ _ _ Hr' H')|].
    rewrite (attempts_listing _ _ Hr _ H), (attempts_listing _ _ Hr' _ H').
    clear -Hsame. revert p. induction (S n) as [|k IH]; intros p; [constructor|].
    simpl. pose proof (Hsame p) as Hp.
    destruct (sys_fs sys p) as [[r1|es1|w1|w1]|],
      (sys_fs sys' p) as [[r2|es2|w2|w2]|]; try contradiction;
      try apply Permutation_refl.
    rewrite !flat_map_concat_map. apply Permutation_concat_map; auto.
Qed.

Lemma nested_files_are_attempted_witness :
  let sys := sample_system Dlfcn None in
  readable (sys_fs sys)
  /\ nesting_le (sys_fs sys) 2 "/opt/uhd"
  /\ exists evs,
       load_path 3 sys "/opt/uhd" [] = Some (Done tt, evs)
       /\ In "/opt/uhd/c/d"%string (load_attempts evs).
Proof.
  intros sys. split; [exact sample_fs_readable|].
  split; [exact sample_fs_nesting|].
  destruct (nested_files_are_attempted sys 2 "/opt/uhd" []
              sample_fs_readable sample_fs_nesting)
    as (evs & Hrun & Hreach & _).
  exists evs. split; [exact Hrun|].
  apply Hreach. split; [|exists Handle; reflexivity].
  eapply reaches_entry; [reflexivity|right; right; left; reflexivity|].
  eapply reaches_entry; [reflexivity|left; reflexivity|apply reaches_self].
Defined.
